(** * Order system: event bus, order registry and inventory ledger

    A shallow embedding of [EventBus.js], [OrderService.js] and
    [InventoryService.js], and the properties of their specification.

    Modelling choices, all taken from the JavaScript source:
    - a listener is a function value; the bus compares listeners by identity
      ([l !== listener]), so a listener is an identifier [hid] and what it
      does when called is given by [code];
    - arrays and order records are heap objects reached through references:
      [on] pushes onto the array a running [forEach] may be walking, and
      [createOrder] stores, publishes and returns one and the same object;
    - a method is a function from the state of the program to a completion
      (normal or abrupt), the next state, and a record of what it did on
      the bus: its publications, each with the listener calls it caused,
      each of these with what the listener did in turn. The record is
      written only, nothing reads it back;
    - a number is an IEEE 754 double, held as a whole number of units of
      2^-1074; sums and differences are rounded to the nearest double, ties
      to even, as [+] and [-] do. The two zeros are one value: the code has
      no division and nothing else that tells them apart;
    - [new Date()] reads the field [clock] of the state, in milliseconds
      since the epoch;
    - [console.log] lines are not modelled; [console.error] in [emit] is;
    - the table of the bus is a plain object: under a name it does not
      hold itself, it finds what [Object.prototype] has under this name,
      if anything, which is no array ([Object.prototype] is taken as the
      language defines it). *)

From Stdlib Require Import ZArith QArith.
From stdpp Require Import base option list gmap strings pretty countable fin_maps.

Open Scope string_scope.
Open Scope list_scope.
Open Scope Z_scope.

(** ** Numbers *)

(** Every finite double is a whole multiple of 2^-1074, the least positive
    double: [Finite k] is k × 2^-1074. A finite double has at most 53
    significant bits and is below 2^1024. *)
Inductive number :=
| NaN
| Infinity (negative : bool)
| Finite (k : Z).

Global Instance number_eq_dec : EqDecision number.
Proof. solve_decision. Defined.

Definition number_enc (x : number) : unit + (bool + Z) :=
  match x with
  | NaN => inl tt
  | Infinity s => inr (inl s)
  | Finite k => inr (inr k)
  end.

Definition number_dec (x : unit + (bool + Z)) : number :=
  match x with
  | inl _ => NaN
  | inr (inl s) => Infinity s
  | inr (inr k) => Finite k
  end.

Global Instance number_countable : Countable number.
Proof. apply (inj_countable' number_enc number_dec). by intros []. Defined.

(** The number 1 in units of 2^-1074. *)
Definition one_unit : Z := 2 ^ 1074.

(** The whole number [n], as it is when it is a double: up to 2^53 in
    absolute value every whole number is one. *)
Definition of_Z (n : Z) : number := Finite (n * one_unit).

(** The double nearest to a/b units, for 0 <= a and 0 < b
    (roundTiesToEven): the quotient is cut to 53 significant bits, [sh]
    being the number of bits cut, and goes up when what is cut is more than
    half of the last bit kept, or half of it with an odd last bit; from
    2^1024 on the result is Infinity. *)
Definition nearest (a b : Z) : number :=
  let sh := Z.max 0 (Z.log2 (a / b) - 52) in
  let ulp := 2 ^ sh * b in
  let m := a / ulp in
  let twice := 2 * (a `mod` ulp) in
  let m' := if (ulp <? twice) || ((twice =? ulp) && Z.odd m)
            then m + 1 else m in
  if 2 ^ (2098 - sh) <=? m' then Infinity false else Finite (m' * 2 ^ sh).

(** [-x] *)
Definition num_neg (x : number) : number :=
  match x with
  | NaN => NaN
  | Infinity s => Infinity (negb s)
  | Finite k => Finite (- k)
  end.

Definition round_ratio (a b : Z) : number :=
  if a <? 0 then num_neg (nearest (- a) b) else nearest a b.

(** The double nearest to [k] units. *)
Definition num_round (k : Z) : number := round_ratio k 1.

(** The double a decimal literal of the source stands for. *)
Definition literal (q : Q) : number :=
  round_ratio (Qnum q * one_unit) (Z.pos (Qden q)).

(** [x + y] *)
Definition num_add (x y : number) : number :=
  match x, y with
  | NaN, _ | _, NaN => NaN
  | Infinity s, Infinity s' => if Bool.eqb s s' then Infinity s else NaN
  | Infinity s, Finite _ | Finite _, Infinity s => Infinity s
  | Finite a, Finite b => num_round (a + b)
  end.

(** [x - y] *)
Definition num_sub (x y : number) : number := num_add x (num_neg y).

(** [x <= y]; [x >= y] is [num_leb y x]. *)
Definition num_leb (x y : number) : bool :=
  match x, y with
  | NaN, _ | _, NaN => false
  | Infinity true, _ => true
  | _, Infinity false => true
  | Infinity false, _ => false
  | _, Infinity true => false
  | Finite a, Finite b => a <=? b
  end.

(** [!x] on a number: 0 and NaN are falsy. *)
Definition num_falsy (x : number) : bool :=
  match x with
  | NaN => true
  | Infinity _ => false
  | Finite k => k =? 0
  end.

(** ** Values *)

Abbreviation hid := nat.
Abbreviation loc := nat.

Inductive value :=
| VUndefined
| VNull
| VBool (b : bool)
| VNum (n : number)
| VStr (s : string)
| VRef (l : loc).

Global Instance value_eq_dec : EqDecision value.
Proof. solve_decision. Defined.

Definition value_enc (v : value)
    : unit + (unit + (bool + (number + (string + nat)))) :=
  match v with
  | VUndefined => inl tt
  | VNull => inr (inl tt)
  | VBool b => inr (inr (inl b))
  | VNum n => inr (inr (inr (inl n)))
  | VStr s => inr (inr (inr (inr (inl s))))
  | VRef l => inr (inr (inr (inr (inr l))))
  end.

Definition value_dec (x : unit + (unit + (bool + (number + (string + nat)))))
    : value :=
  match x with
  | inl _ => VUndefined
  | inr (inl _) => VNull
  | inr (inr (inl b)) => VBool b
  | inr (inr (inr (inl n))) => VNum n
  | inr (inr (inr (inr (inl s)))) => VStr s
  | inr (inr (inr (inr (inr l)))) => VRef l
  end.

Global Instance value_countable : Countable value.
Proof. apply (inj_countable' value_enc value_dec). by intros []. Defined.

(** A whole number as a value. *)
Definition VInt (n : Z) : value := VNum (of_Z n).

(** JavaScript truthiness: [!v] is [negb (truthy v)]. *)
Definition truthy (v : value) : bool :=
  match v with
  | VUndefined | VNull => false
  | VBool b => b
  | VNum n => negb (num_falsy n)
  | VStr s => negb (bool_decide (s = ""))
  | VRef _ => true
  end.

(** A plain object: its own properties. *)
Abbreviation obj := (gmap string value).

(** Reading a property that is absent yields [undefined]. *)
Definition prop (o : obj) (k : string) : value := default VUndefined (o !! k).

(** ** Completions, publications and the state of the program *)

Inductive exn :=
| Error (message : string)
| TypeError (message : string)
| Raised (v : value).

Inductive Completion (A : Type) :=
| Normal (a : A)
| Throw (e : exn).
Arguments Normal {A} a.
Arguments Throw {A} e.

(** What a call did on the bus: [Published] is one call of [emit], with
    what its dispatch did; [Called] is one call of a listener by [emit],
    with what the listener did; [ConsoleError] is the report of the [catch]
    block of [emit]. *)
#[warnings="-register-all"]
Inductive Event :=
| Published (eventName : string) (payload : value) (dispatch : list Event)
| Called (listener : hid) (payload : value) (inner : list Event)
| ConsoleError (text : string) (error : exn).

Record Item := { stock : number; price : number; category : string }.

Record Reservation := {
  r_item : value;
  r_quantity : Z;
  r_price : number;
  r_reservedAt : string;
  r_status : string;
  r_fulfilledAt : option string
}.

Record World := {
  events : gmap string loc;          (* EventBus.events: name -> array *)
  arrays : list (list hid);          (* the arrays of listeners, by reference *)
  objects : list obj;                (* plain objects, by reference *)
  orders : gmap value loc;           (* OrderService.orders *)
  inventory : gmap value Item;       (* InventoryService.inventory *)
  reservations : gmap value Reservation; (* InventoryService.reservations *)
  lowStockThreshold : Z;             (* InventoryService.lowStockThreshold *)
  clock : Z                          (* the time value [new Date()] reads *)
}.

Definition set_events (f : gmap string loc → gmap string loc) (w : World) : World :=
  {| events := f (events w); arrays := arrays w; objects := objects w;
     orders := orders w; inventory := inventory w;
     reservations := reservations w;
     lowStockThreshold := lowStockThreshold w; clock := clock w |}.

Definition set_arrays (f : list (list hid) → list (list hid)) (w : World) : World :=
  {| events := events w; arrays := f (arrays w); objects := objects w;
     orders := orders w; inventory := inventory w;
     reservations := reservations w;
     lowStockThreshold := lowStockThreshold w; clock := clock w |}.

Definition set_objects (f : list obj → list obj) (w : World) : World :=
  {| events := events w; arrays := arrays w; objects := f (objects w);
     orders := orders w; inventory := inventory w;
     reservations := reservations w;
     lowStockThreshold := lowStockThreshold w; clock := clock w |}.

Definition set_orders (f : gmap value loc → gmap value loc) (w : World) : World :=
  {| events := events w; arrays := arrays w; objects := objects w;
     orders := f (orders w); inventory := inventory w;
     reservations := reservations w;
     lowStockThreshold := lowStockThreshold w; clock := clock w |}.

Definition set_inventory (f : gmap value Item → gmap value Item) (w : World) : World :=
  {| events := events w; arrays := arrays w; objects := objects w;
     orders := orders w; inventory := f (inventory w);
     reservations := reservations w;
     lowStockThreshold := lowStockThreshold w; clock := clock w |}.

Definition set_reservations
    (f : gmap value Reservation → gmap value Reservation) (w : World) : World :=
  {| events := events w; arrays := arrays w; objects := objects w;
     orders := orders w; inventory := inventory w;
     reservations := f (reservations w);
     lowStockThreshold := lowStockThreshold w; clock := clock w |}.

(** A method: from the state to a completion, the next state and the
    publications made. *)
Definition M (A : Type) : Type := World → Completion A * World * list Event.

Definition ret {A} (a : A) : M A := λ w, (Normal a, w, []).

Definition throw {A} (e : exn) : M A := λ w, (Throw e, w, []).

Definition bind {A B} (m : M A) (k : A → M B) : M B := λ w,
  match m w with
  | (Normal a, w1, tr1) =>
      match k a w1 with (r, w2, tr2) => (r, w2, tr1 ++ tr2) end
  | (Throw e, w1, tr1) => (Throw e, w1, tr1)
  end.

Notation "'let*' x := m 'in' k" := (bind m (λ x, k))
  (at level 10, x pattern, m at level 100, k at level 200).
Notation "m ;;; k" := (bind m (λ _, k))
  (at level 100, k at level 200, right associativity).

Definition get : M World := λ w, (Normal w, w, []).
Definition modify (f : World → World) : M unit := λ w, (Normal tt, f w, []).

(** [try { body } catch (error) { handler }] *)
Definition try_catch {A} (body : M A) (handler : exn → M A) : M A := λ w,
  match body w with
  | (Normal a, w1, tr1) => (Normal a, w1, tr1)
  | (Throw e, w1, tr1) =>
      match handler e w1 with (r, w2, tr2) => (r, w2, tr1 ++ tr2) end
  end.

(** Groups what [m] published under one node of the record. *)
Definition scope {A} (node : list Event → Event) (m : M A) : M A := λ w,
  match m w with (r, w1, tr) => (r, w1, [node tr]) end.

Definition console_error (text : string) (error : exn) : M unit := λ w,
  (Normal tt, w, [ConsoleError text error]).

Definition completion {A} (r : Completion A * World * list Event) : Completion A := r.1.1.
Definition world_of {A} (r : Completion A * World * list Event) : World := r.1.2.
Definition record_of {A} (r : Completion A * World * list Event) : list Event := r.2.

(** ** EventBus.js *)

(** The property names of [Object.prototype], which the table of the bus,
    a plain object, inherits. *)
Definition Object_prototype : list string :=
  ["constructor"; "__defineGetter__"; "__defineSetter__"; "hasOwnProperty";
   "__lookupGetter__"; "__lookupSetter__"; "isPrototypeOf";
   "propertyIsEnumerable"; "toString"; "valueOf"; "__proto__";
   "toLocaleString"].

Definition inherited (eventName : string) : bool :=
  bool_decide (eventName ∈ Object_prototype).

(** What [this.events[eventName]] gives: the array the table holds itself
    under the name; or else what it inherits under it, a function, or
    [Object.prototype] under "__proto__", a truthy value that is no array;
    or else [undefined]. *)
Inductive Entry :=
| Array (l : loc)
| NotArray
| Missing.

Global Instance Entry_eq_dec : EqDecision Entry.
Proof. solve_decision. Defined.

Definition events_get (w : World) (eventName : string) : Entry :=
  match events w !! eventName with
  | Some l => Array l
  | None => if inherited eventName then NotArray else Missing
  end.

(** Under the name the bus finds an array or nothing: the table holds an
    array under it itself, or the name is not one it inherits. *)
Definition usable (w : World) (eventName : string) : Prop :=
  events_get w eventName ≠ NotArray.

Global Instance usable_dec w eventName : Decision (usable w eventName).
Proof. unfold usable. apply _. Defined.

(** The listeners of [eventName]: the contents of the array the table
    holds under the name, none when it holds none. *)
Definition listeners (w : World) (eventName : string) : list hid :=
  match events w !! eventName with
  | Some l => default [] (arrays w !! l)
  | None => []
  end.

(** A new array object. *)
Definition new_array (xs : list hid) : M loc := λ w,
  (Normal (length (arrays w)), set_arrays (λ a, a ++ [xs]) w, []).

(** [array.push(listener)], in place. *)
Definition push (l : loc) (listener : hid) : M unit :=
  modify (set_arrays (λ a,
    match a !! l with
    | Some xs => <[l := xs ++ [listener]]> a
    | None => a
    end)).

(** [on(eventName, listener)] *)
Definition on (eventName : string) (listener : hid) : M unit :=
  let* w := get in
  (match events_get w eventName with
   | Missing =>
       let* l := new_array [] in
       modify (set_events <[eventName := l]>)
   | _ => ret tt
   end) ;;;
  let* w := get in
  match events_get w eventName with
  | Array l => push l listener
  | NotArray =>
      throw (TypeError "this.events[eventName].push is not a function")
  | Missing =>
      throw (TypeError "Cannot read properties of undefined (reading 'push')")
  end.

(** [off(eventName, listener)]: [filter] builds a new array, which replaces
    the entry; the array that was there is left as it is. *)
Definition off (eventName : string) (listener : hid) : M unit :=
  let* w := get in
  match events_get w eventName with
  | Array l =>
      let* l' := new_array
        (filter (λ x, x ≠ listener) (default [] (arrays w !! l))) in
      modify (set_events <[eventName := l']>) ;;;
      let* w := get in
      if bool_decide (length (listeners w eventName) = 0%nat)
      then modify (set_events (delete eventName))
      else ret tt
  | NotArray =>
      throw (TypeError "this.events[eventName].filter is not a function")
  | Missing => ret tt
  end.

(** [getEvents()]: the names that have an entry. *)
Definition getEvents (w : World) : list string := (map_to_list (events w)).*1.

Section Bus.

(** What each listener does when it is called with a payload. *)
Variable code : hid → value → M unit.

(** [array.forEach(f)]: the length is read once, before the first call;
    each index below it is then read from the array as it is at that
    moment, and an index that is no longer there is skipped. [n] counts
    the indices left, [k] is the next one. *)
Fixpoint forEach_from (l : loc) (f : hid → M unit) (n k : nat) : M unit :=
  match n with
  | O => ret tt
  | S n' => λ w,
      match arrays w !! l ≫= (.!! k) with
      | Some x => (f x ;;; forEach_from l f n' (S k)) w
      | None => forEach_from l f n' (S k) w
      end
  end.

Definition forEach (l : loc) (f : hid → M unit) : M unit := λ w,
  forEach_from l f (length (default [] (arrays w !! l))) 0 w.

(** [emit(eventName, payload)] *)
Definition emit (eventName : string) (payload : value) : M unit :=
  scope (Published eventName payload)
    (let* w := get in
     match events_get w eventName with
     | Array l =>
         forEach l (λ listener,
           try_catch
             (scope (Called listener payload) (code listener payload))
             (λ error,
               console_error
                 ("Error in event listener for " +:+ eventName +:+ ":")
                 error))
     | NotArray =>
         throw (TypeError "this.events[eventName].forEach is not a function")
     | Missing => ret tt
     end).

End Bus.

(** ** Reading the record of a call *)

(** The listener calls of a dispatch, in order. *)
Definition called (tr : list Event) : list (hid * value) :=
  omap (λ e, match e with Called h p _ => Some (h, p) | _ => None end) tr.

(** The publications a method made itself, in order (those made by the
    listeners it reached are inside the nodes). *)
Definition published (tr : list Event) : list (string * value) :=
  omap (λ e, match e with Published t p _ => Some (t, p) | _ => None end) tr.


(** ** Listener arrays only grow *)

(** An array that exists keeps its elements, at their indices: the only
    update in place the bus makes is [push]. *)
Definition arrays_grow (w w' : World) : Prop :=
  ∀ l xs, arrays w !! l = Some xs → ∃ ys, arrays w' !! l = Some (xs ++ ys).

Definition grows {A} (m : M A) : Prop := ∀ w, arrays_grow w (world_of (m w)).

(** Every entry of [events] refers to an array that exists. *)
Definition bus_wf (w : World) : Prop :=
  ∀ t l, events w !! t = Some l → (l < length (arrays w))%nat.


(** ** Built-ins the services use *)

(** A new plain object. *)
Definition new_object (o : obj) : M loc := λ w,
  (Normal (length (objects w)), set_objects (λ os, os ++ [o]) w, []).

(** [v.k] for a property name [k] that no primitive value has: a
    [TypeError] on [undefined] and [null], [undefined] on another
    primitive. *)
Definition get_prop (v : value) (k : string) : M value :=
  match v with
  | VRef l => λ w, (Normal (prop (default ∅ (objects w !! l)) k), w, [])
  | VUndefined =>
      throw (TypeError
        ("Cannot read properties of undefined (reading '" +:+ k +:+ "')"))
  | VNull =>
      throw (TypeError
        ("Cannot read properties of null (reading '" +:+ k +:+ "')"))
  | _ => ret VUndefined
  end.

Fixpoint zeros (n : nat) : string :=
  match n with O => "" | S n' => "0" +:+ zeros n' end.

(** *** Number::toString

    The text of a finite number other than 0 is made of the least number of
    decimal digits that read back as this very double: digits [s], [d] of
    them, and an exponent [n], with s × 10^(n-d) rounding to the number. *)

(** The least [j] from [j] on with 10^j × k units at least 1. *)
Fixpoint first_exponent (fuel : nat) (j k : Z) : Z :=
  match fuel with
  | O => j
  | S fuel' =>
      if one_unit <=? k * 10 ^ j then j else first_exponent fuel' (j + 1) k
  end.

(** The [n] with 10^(n-1) <= k units < 10^n, for 0 < k. *)
Definition decimal_exponent (k : Z) : Z :=
  if one_unit <=? k then Z.of_nat (String.length (pretty (k / one_unit)))
  else 1 - first_exponent 400 1 k.

(** The digits, [d] of them, that read back as [k] units, if there are
    any: the [d] first digits of the number or these plus one in the last
    place, the nearer of the two when both do, the even one when they are
    as near. *)
Definition candidate (k n d : Z) : option Z :=
  let A := if n <=? d then k * 10 ^ (d - n) else k in
  let B := if n <=? d then one_unit else one_unit * 10 ^ (n - d) in
  let lo := A / B in
  let r := A `mod` B in
  let reads_back (c : Z) : bool :=
    bool_decide
      ((if d <=? n then round_ratio (c * 10 ^ (n - d) * one_unit) 1
        else round_ratio (c * one_unit) (10 ^ (d - n))) = Finite k) in
  match reads_back lo, reads_back (lo + 1) with
  | true, true =>
      if 2 * r <? B then Some lo
      else if B <? 2 * r then Some (lo + 1)
      else if Z.even lo then Some lo else Some (lo + 1)
  | true, false => Some lo
  | false, true => Some (lo + 1)
  | false, false => None
  end.

(** The first number of digits, from [d] on, that has a candidate. *)
Fixpoint shortest (fuel : nat) (k n d : Z) : Z * Z :=
  match fuel with
  | O => (0, d)
  | S fuel' =>
      match candidate k n d with
      | Some s => (s, d)
      | None => shortest fuel' k n (d + 1)
      end
  end.

(** Zeros at the end of the digits are not digits of the text. *)
Fixpoint strip_zeros (fuel : nat) (s : Z) : Z :=
  match fuel with
  | O => s
  | S fuel' =>
      if (0 <? s) && (s `mod` 10 =? 0) then strip_zeros fuel' (s / 10) else s
  end.

(** The text of [k] units, for 0 < k: the digits alone, with zeros after
    them or a point inside them, for a number below 10^21 with no more than
    six zeros after the point; with an exponent otherwise. *)
Definition format_positive (k : Z) : string :=
  let n0 := decimal_exponent k in
  let '(s, d) := shortest 17 k n0 1 in
  let n := n0 + (Z.of_nat (String.length (pretty s)) - d) in
  let ds := pretty (strip_zeros 17 s) in
  let len := Z.of_nat (String.length ds) in
  if (len <=? n) && (n <=? 21) then ds +:+ zeros (Z.to_nat (n - len))
  else if (0 <? n) && (n <=? 21) then
    String.substring 0 (Z.to_nat n) ds +:+ "."
    +:+ String.substring (Z.to_nat n) (Z.to_nat (len - n)) ds
  else if (-6 <? n) && (n <=? 0) then "0." +:+ zeros (Z.to_nat (- n)) +:+ ds
  else
    let e := n - 1 in
    let exponent := (if e <? 0 then "-" else "+") +:+ pretty (Z.abs e) in
    if len =? 1 then ds +:+ "e" +:+ exponent
    else String.substring 0 1 ds +:+ "."
         +:+ String.substring 1 (Z.to_nat (len - 1)) ds +:+ "e" +:+ exponent.

Definition Number_toString (x : number) : string :=
  match x with
  | NaN => "NaN"
  | Infinity false => "Infinity"
  | Infinity true => "-Infinity"
  | Finite k =>
      if k =? 0 then "0"
      else if k <? 0 then "-" +:+ format_positive (- k)
      else format_positive k
  end.

(** [`${v}`] *)
Definition toString (v : value) : string :=
  match v with
  | VUndefined => "undefined"
  | VNull => "null"
  | VBool true => "true"
  | VBool false => "false"
  | VNum n => Number_toString n
  | VStr s => s
  | VRef _ => "[object Object]"
  end.

(** [n] in decimal, with zeros in front up to [width] digits. *)
Definition pad (width : nat) (n : Z) : string :=
  let s := pretty n in zeros (width - String.length s) +:+ s.

(** The civil date of a day number counted from 1970-01-01 (proleptic
    Gregorian calendar, as ECMAScript's YearFromTime, MonthFromTime and
    DateFromTime give it). *)
Definition civil_from_days (days : Z) : Z * Z * Z :=
  let z := days + 719468 in
  let era := z / 146097 in
  let doe := z - era * 146097 in
  let yoe := (doe - doe / 1460 + doe / 36524 - doe / 146096) / 365 in
  let doy := doe - (365 * yoe + yoe / 4 - yoe / 100) in
  let mp := (5 * doy + 2) / 153 in
  let d := doy - (153 * mp + 2) / 5 + 1 in
  let m := if mp <? 10 then mp + 3 else mp - 9 in
  let y := yoe + era * 400 + (if m <=? 2 then 1 else 0) in
  (y, m, d).

(** [Date.prototype.toISOString] on the time value [t], milliseconds since
    the epoch: YYYY-MM-DDTHH:mm:ss.sssZ, the year with a sign and six
    digits outside 0..9999. *)
Definition toISOString (t : Z) : string :=
  let '(y, m, d) := civil_from_days (t / 86400000) in
  let ms := t `mod` 86400000 in
  (if (0 <=? y) && (y <=? 9999) then pad 4 y
   else (if y <? 0 then "-" else "+") +:+ pad 6 (Z.abs y))
  +:+ "-" +:+ pad 2 m +:+ "-" +:+ pad 2 d
  +:+ "T" +:+ pad 2 (ms / 3600000)
  +:+ ":" +:+ pad 2 ((ms / 60000) `mod` 60)
  +:+ ":" +:+ pad 2 ((ms / 1000) `mod` 60)
  +:+ "." +:+ pad 3 (ms `mod` 1000) +:+ "Z".

(** [new Date().toISOString()] *)
Definition now_iso : M string := λ w, (Normal (toISOString (clock w)), w, []).

(** ** OrderService.js and InventoryService.js *)

(** The data [addProduct] is given: each property may be absent. *)
Record ItemData := {
  d_stock : option number;
  d_price : option number;
  d_category : option string
}.

(** The own properties of an [ItemData] object. *)
Definition ItemData_props (d : ItemData) : obj :=
  let with_prop (k : string) (v : option value) (o : obj) : obj :=
    match v with Some x => <[k := x]> o | None => o end in
  with_prop "stock" (VNum <$> d_stock d)
    (with_prop "price" (VNum <$> d_price d)
      (with_prop "category" (VStr <$> d_category d) ∅)).

(** The inventory the constructor of [InventoryService] starts from. *)
Definition initial_inventory : gmap value Item :=
  list_to_map [
    (VStr "MacBook Pro",
     {| stock := of_Z 10; price := literal 2399.99; category := "laptops" |});
    (VStr "iPhone 15",
     {| stock := of_Z 25; price := literal 999.99; category := "phones" |});
    (VStr "iPad Air",
     {| stock := of_Z 15; price := literal 599.99; category := "tablets" |});
    (VStr "AirPods Pro",
     {| stock := of_Z 50; price := literal 249.99; category := "accessories" |});
    (VStr "Apple Watch",
     {| stock := of_Z 30; price := literal 399.99; category := "wearables" |})
  ].

(** [new EventBus()], [new OrderService(eventBus)] before any call: nothing
    stored, no listener. *)
Definition empty_world (t : Z) : World :=
  {| events := ∅; arrays := []; objects := []; orders := ∅;
     inventory := ∅; reservations := ∅; lowStockThreshold := 0; clock := t |}.

(** [new InventoryService(eventBus)]; the two bound methods are new
    function values, [checkAndReserveItem_bound] and [handleDelivery_bound]. *)
Definition InventoryService_new
    (checkAndReserveItem_bound handleDelivery_bound : hid) : M unit :=
  modify (λ w,
    {| events := events w; arrays := arrays w; objects := objects w;
       orders := orders w; inventory := initial_inventory;
       reservations := ∅; lowStockThreshold := 5; clock := clock w |}) ;;;
  on "order:created" checkAndReserveItem_bound ;;;
  on "order:delivered" handleDelivery_bound.

Section Services.

Variable code : hid → value → M unit.

(** [createOrder(orderData)]; [orderData] is given by its properties, the
    method only reads it. *)
Definition createOrder (orderData : obj) : M value :=
  if negb (truthy (prop orderData "orderId"))
     || negb (truthy (prop orderData "email"))
     || negb (truthy (prop orderData "item"))
  then throw (Error "Missing required order fields: orderId, email, item")
  else
    let* w := get in
    if bool_decide (is_Some (orders w !! prop orderData "orderId"))
    then throw (Error ("Order " +:+ toString (prop orderData "orderId")
                       +:+ " already exists"))
    else
      let* timestamp := now_iso in
      let* enrichedOrder := new_object
        (<["status" := VStr "created"]>
           (<["timestamp" := VStr timestamp]> orderData)) in
      modify (set_orders <[prop orderData "orderId" := enrichedOrder]>) ;;;
      emit code "order:created" (VRef enrichedOrder) ;;;
      ret (VRef enrichedOrder).

(** [getOrder(orderId)] *)
Definition getOrder (w : World) (orderId : value) : value :=
  match orders w !! orderId with
  | Some l => VRef l
  | None => VUndefined
  end.

(** [checkAndReserveItem(orderData)] *)
Definition checkAndReserveItem (orderData : value) : M unit :=
  let* itemName := get_prop orderData "item" in
  let* w := get in
  match inventory w !! itemName with
  | None => emit code "order:inventory_unavailable" orderData
  | Some item =>
      if num_leb (stock item) (of_Z 0)
      then emit code "order:out_of_stock" orderData
      else
        let item' := {| stock := num_sub (stock item) (of_Z 1);
                        price := price item;
                        category := category item |} in
        modify (set_inventory <[itemName := item']>) ;;;
        let* orderId := get_prop orderData "orderId" in
        let* itemName' := get_prop orderData "item" in
        let* reservedAt := now_iso in
        modify (set_reservations
          <[orderId := {| r_item := itemName'; r_quantity := 1;
                          r_price := price item'; r_reservedAt := reservedAt;
                          r_status := "reserved"; r_fulfilledAt := None |}]>) ;;;
        let* w := get in
        (if num_leb (stock item') (of_Z (lowStockThreshold w))
         then
           let* itemName'' := get_prop orderData "item" in
           let* alert := new_object
             (<["item" := itemName'']>
               (<["currentStock" := VNum (stock item')]>
                 (<["threshold" := VInt (lowStockThreshold w)]> ∅))) in
           emit code "inventory:low_stock" (VRef alert)
         else ret tt) ;;;
        emit code "order:inventory_reserved" orderData
  end.

(** [handleDelivery(shipmentData)] *)
Definition handleDelivery (shipmentData : value) : M unit :=
  let* orderId := get_prop shipmentData "orderId" in
  let* w := get in
  match reservations w !! orderId with
  | Some reservation =>
      let* fulfilledAt := now_iso in
      modify (set_reservations
        <[orderId := {| r_item := r_item reservation;
                        r_quantity := r_quantity reservation;
                        r_price := r_price reservation;
                        r_reservedAt := r_reservedAt reservation;
                        r_status := "fulfilled";
                        r_fulfilledAt := Some fulfilledAt |}]>)
  | None => ret tt
  end.

(** [addStock(itemName, quantity)] *)
Definition addStock (itemName : value) (quantity : number) : M unit :=
  let* w := get in
  match inventory w !! itemName with
  | Some item =>
      let item' := {| stock := num_add (stock item) quantity;
                      price := price item;
                      category := category item |} in
      modify (set_inventory <[itemName := item']>) ;;;
      let* msg := new_object
        (<["item" := itemName]>
          (<["added" := VNum quantity]>
            (<["total" := VNum (stock item')]> ∅))) in
      emit code "inventory:stock_added" (VRef msg)
  | None => ret tt
  end.

(** [x || y] on an optional number and on an optional string. *)
Definition or_number (x : option number) (y : number) : number :=
  match x with Some n => if num_falsy n then y else n | None => y end.
Definition or_string (x : option string) (y : string) : string :=
  match x with
  | Some s => if bool_decide (s = "") then y else s
  | None => y
  end.

(** [addProduct(itemName, itemData)] *)
Definition addProduct (itemName : value) (itemData : ItemData) : M unit :=
  modify (set_inventory
    <[itemName := {| stock := or_number (d_stock itemData) (of_Z 0);
                     price := or_number (d_price itemData) (of_Z 0);
                     category := or_string (d_category itemData) "general" |}]>) ;;;
  let* msg := new_object (ItemData_props itemData ∪ {["item" := itemName]}) in
  emit code "inventory:product_added" (VRef msg).

End Services.

(** ** The bus as the specification words it *)

Section Snapshot.

Variable code : hid → value → M unit.

(** One listener is called with the payload; what it throws is caught
    and reported. *)
Definition deliver (eventName : string) (payload : value) (listener : hid)
    : M unit :=
  try_catch
    (scope (Called listener payload) (code listener payload))
    (λ error,
      console_error ("Error in event listener for " +:+ eventName +:+ ":")
        error).

(** The listeners of a list are called one after the other. *)
Fixpoint dispatch (eventName : string) (payload : value) (hs : list hid)
    : M unit :=
  match hs with
  | [] => ret tt
  | h :: hs' => deliver eventName payload h ;;; dispatch eventName payload hs'
  end.

(** Following the specification: publishing delivers to the listeners
    that are subscribed when the call starts, in their order. *)
Definition publish_snapshot (eventName : string) (payload : value) : M unit :=
  λ w, scope (Published eventName payload)
         (dispatch eventName payload (listeners w eventName)) w.

End Snapshot.

(** Following the specification of [unsubscribe]: exactly one subscription
    of the listener is removed. *)
Fixpoint remove_one (listener : hid) (hs : list hid) : list hid :=
  match hs with
  | [] => []
  | h :: hs' => if bool_decide (h = listener) then hs' else h :: remove_one listener hs'
  end.

(** ** The inventory ledger as a whole *)

(** A whole number that is not negative. *)
Definition whole (x : number) : Prop := ∃ n, 0 ≤ n ∧ x = of_Z n.

(** What a stock is when whole numbers are all that is put in: a whole
    number that is not negative, or Infinity, which sums reach from 2^1024
    on. *)
Definition stock_ok (x : number) : Prop := whole x ∨ x = Infinity false.

(** No item has a negative stock, and every stock is whole. *)
Definition stocks_nonneg (w : World) : Prop :=
  ∀ k it, inventory w !! k = Some it → stock_ok (stock it).

(** The operations of the ledger. *)
Inductive LedgerOp :=
| Reserve (orderData : value)
| Deliver (shipmentData : value)
| AddStock (itemName : value) (quantity : number)
| AddProduct (itemName : value) (itemData : ItemData).

Definition run_op (code : hid → value → M unit) (op : LedgerOp) : M unit :=
  match op with
  | Reserve orderData => checkAndReserveItem code orderData
  | Deliver shipmentData => handleDelivery shipmentData
  | AddStock itemName quantity => addStock code itemName quantity
  | AddProduct itemName itemData => addProduct code itemName itemData
  end.

(** The operations that are given a whole number of units that is not
    negative. *)
Definition adds_nonneg (op : LedgerOp) : Prop :=
  match op with
  | AddStock _ quantity => whole quantity
  | AddProduct _ itemData => whole (or_number (d_stock itemData) (of_Z 0))
  | _ => True
  end.

(** The states the ledger reaches from its construction, by operations
    taken from [allowed] and by calls of listeners. *)
Inductive reachable (code : hid → value → M unit) (allowed : LedgerOp → Prop)
    : World → Prop :=
| reach_new w h1 h2 :
    reachable code allowed (world_of (InventoryService_new h1 h2 w))
| reach_op w op :
    reachable code allowed w → allowed op →
    reachable code allowed (world_of (run_op code op w))
| reach_listener w h p :
    reachable code allowed w →
    reachable code allowed (world_of (code h p w)).

(** ** A small system to run the bus on *)

(** Four listeners: listener 1 subscribes listener 4 to "a" and unsubscribes
    listener 3 from it, listener 2 throws, listener 3 subscribes itself to
    "b", listener 4 does nothing. *)
Definition sample_code (h : hid) (payload : value) : M unit :=
  match h with
  | 1%nat => on "a" 4 ;;; off "a" 3
  | 2%nat => throw (Error "boom")
  | 3%nat => on "b" 3
  | _ => ret tt
  end.

(** Listeners 1, 2 and 3 subscribed to "a", in this order. *)
Definition sample_world : World :=
  world_of ((on "a" 1 ;;; on "a" 2 ;;; on "a" 3) (empty_world 0)).

(** ** The order registry as the specification words it *)

(** The two errors of [createOrder]. *)
Definition ValidationError : exn :=
  Error "Missing required order fields: orderId, email, item".

(** A required field is missing when [!orderData.k] holds: the property is
    absent, or its value is [undefined], [null], [false], [0] or [""]. *)
Definition missing (orderData : obj) (k : string) : Prop :=
  truthy (prop orderData k) = false.

(** Listeners that do nothing. *)
Definition no_code (h : hid) (payload : value) : M unit := ret tt.

(** An order as the callers of [createOrder] write it. *)
Definition sample_order (orderId : string) : obj :=
  <["orderId" := VStr orderId]>
    (<["email" := VStr "user@example.com"]>
      (<["item" := VStr "MacBook Pro"]>
        (<["address" := VStr "123 Apple St, Cupertino, CA"]> ∅))).

(** ** The inventory ledger as the specification words it *)

(** Publishing a list of events, one after the other. *)
Fixpoint publish_all (code : hid → value → M unit)
    (evs : list (string * value)) : M unit :=
  match evs with
  | [] => ret tt
  | (eventName, payload) :: evs' =>
      emit code eventName payload ;;; publish_all code evs'
  end.

(** A method keeps a property of the state. *)
Definition preserves {A} (P : World → Prop) (m : M A) : Prop :=
  ∀ w, P w → P (world_of (m w)).

(** Time passes. *)
Definition advance (ms : Z) (w : World) : World :=
  {| events := events w; arrays := arrays w; objects := objects w;
     orders := orders w; inventory := inventory w;
     reservations := reservations w;
     lowStockThreshold := lowStockThreshold w; clock := clock w + ms |}.

(** The ledger after its construction, with an order for a MacBook Pro
    as object 0. *)
Definition ledger_world : World :=
  world_of ((InventoryService_new 1 2 ;;; new_object (sample_order "ORD1"))
              (empty_world 0)).

(** The ledger with two more products, "Widget" with 6 units and "Gadget"
    with 7, and an order for each as objects 2 and 3. *)
Definition boundary_world : World :=
  world_of
    ((InventoryService_new 1 2 ;;;
      addProduct no_code (VStr "Widget")
        {| d_stock := Some (of_Z 6); d_price := Some (literal 9.5);
           d_category := None |} ;;;
      addProduct no_code (VStr "Gadget")
        {| d_stock := Some (of_Z 7); d_price := None;
           d_category := Some "tools" |} ;;;
      new_object (<["orderId" := VStr "W1"]> (<["item" := VStr "Widget"]> ∅)) ;;;
      new_object (<["orderId" := VStr "G1"]> (<["item" := VStr "Gadget"]> ∅)))
       (empty_world 0)).

(** The listeners of [index.js] that the claims are about: the two bound
    methods of the inventory service, themselves publishing to listeners
    that do nothing. *)
Definition system_code (h : hid) (payload : value) : M unit :=
  match h with
  | 1%nat => checkAndReserveItem no_code payload
  | 2%nat => handleDelivery payload
  | _ => ret tt
  end.

(** ** The built-ins on known values *)

Example toISOString_epoch : toISOString 0 = "1970-01-01T00:00:00.000Z".
Proof. reflexivity. Qed.

Example toISOString_2023 :
  toISOString 1700000000123 = "2023-11-14T22:13:20.123Z".
Proof. reflexivity. Qed.

Example toISOString_before_epoch : toISOString (-1) = "1969-12-31T23:59:59.999Z".
Proof. reflexivity. Qed.

Example toISOString_leap_day :
  toISOString 951782400000 = "2000-02-29T00:00:00.000Z".
Proof. reflexivity. Qed.

Example Number_toString_price : Number_toString (literal 2399.99) = "2399.99".
Proof. vm_compute. reflexivity. Qed.

Example Number_toString_integer : Number_toString (of_Z (-12)) = "-12".
Proof. vm_compute. reflexivity. Qed.

Example Number_toString_sum :
  Number_toString (num_add (literal 0.1) (literal 0.2)) = "0.30000000000000004".
Proof. vm_compute. reflexivity. Qed.

Example Number_toString_exponent :
  Number_toString (literal 1e21) = "1e+21"
  ∧ Number_toString (literal 123456789012345680000) = "123456789012345680000"
  ∧ Number_toString (literal 1e-7) = "1e-7"
  ∧ Number_toString (literal 0.000001) = "0.000001".
Proof. vm_compute. done. Qed.

Example num_sub_fraction : num_sub (literal 0.5) (of_Z 1) = literal (-0.5).
Proof. vm_compute. reflexivity. Qed.

Example num_sub_rounds :
  num_sub (of_Z (2 ^ 53 + 10)) (of_Z 1) = of_Z (2 ^ 53 + 8).
Proof. vm_compute. reflexivity. Qed.

Example num_add_overflows :
  num_add (literal 1e308) (literal 1e308) = Infinity false.
Proof. vm_compute. reflexivity. Qed.

(** ** Listener arrays only grow: facts *)

Lemma arrays_grow_refl w : arrays_grow w w.
Proof. intros l xs H. exists []. by rewrite app_nil_r. Qed.

Lemma arrays_grow_trans w1 w2 w3 :
  arrays_grow w1 w2 → arrays_grow w2 w3 → arrays_grow w1 w3.
Proof.
  intros H12 H23 l xs H.
  destruct (H12 _ _ H) as [ys Hys]. destruct (H23 _ _ Hys) as [zs Hzs].
  exists (ys ++ zs). by rewrite app_assoc.
Qed.

Lemma grows_ret {A} (a : A) : grows (ret a).
Proof. intros w. apply arrays_grow_refl. Qed.

Lemma grows_throw {A} e : grows (@throw A e).
Proof. intros w. apply arrays_grow_refl. Qed.

Lemma grows_get : grows get.
Proof. intros w. apply arrays_grow_refl. Qed.

Lemma grows_bind {A B} (m : M A) (k : A → M B) :
  grows m → (∀ a, grows (k a)) → grows (bind m k).
Proof.
  intros Hm Hk w. unfold bind. specialize (Hm w).
  destruct (m w) as [[[a|e] w1] tr1]; [|exact Hm].
  specialize (Hk a w1). destruct (k a w1) as [[r w2] tr2].
  eapply arrays_grow_trans; [exact Hm | exact Hk].
Qed.

Lemma grows_try_catch {A} (body : M A) (handler : exn → M A) :
  grows body → (∀ e, grows (handler e)) → grows (try_catch body handler).
Proof.
  intros Hb Hh w. unfold try_catch. specialize (Hb w).
  destruct (body w) as [[[a|e] w1] tr1]; [exact Hb|].
  specialize (Hh e w1). destruct (handler e w1) as [[r w2] tr2].
  eapply arrays_grow_trans; [exact Hb | exact Hh].
Qed.

Lemma grows_scope {A} node (m : M A) : grows m → grows (scope node m).
Proof.
  intros Hm w. unfold scope. specialize (Hm w).
  by destruct (m w) as [[r w1] tr].
Qed.

Lemma grows_console_error text e : grows (console_error text e).
Proof. intros w. apply arrays_grow_refl. Qed.

Lemma grows_modify f : (∀ w, arrays_grow w (f w)) → grows (modify f).
Proof. intros H w. apply H. Qed.

Lemma grows_set_events f : grows (modify (set_events f)).
Proof. apply grows_modify. intros w l xs H. exists []. by rewrite app_nil_r. Qed.

Lemma grows_new_array xs : grows (new_array xs).
Proof.
  intros w l ys H. exists []. rewrite app_nil_r. simpl.
  apply lookup_app_l_Some. exact H.
Qed.

Lemma grows_push l h : grows (push l h).
Proof.
  apply grows_modify. intros w l' xs H. simpl.
  destruct (arrays w !! l) as [ys|] eqn:Hl.
  - destruct (decide (l = l')) as [->|Hne].
    + exists [h]. rewrite list_lookup_insert_eq; [|by eapply lookup_lt_Some].
      congruence.
    + exists []. by rewrite app_nil_r, list_lookup_insert_ne.
  - exists []. by rewrite app_nil_r.
Qed.

Lemma grows_on t h : grows (on t h).
Proof.
  unfold on. apply grows_bind; [apply grows_get|]. intros w.
  apply grows_bind.
  - destruct (events_get w t); try apply grows_ret.
    apply grows_bind; [apply grows_new_array|]. intros l. apply grows_set_events.
  - intros _. apply grows_bind; [apply grows_get|]. intros w'.
    destruct (events_get w' t); [apply grows_push | apply grows_throw..].
Qed.

Lemma grows_off t h : grows (off t h).
Proof.
  unfold off. apply grows_bind; [apply grows_get|]. intros w.
  destruct (events_get w t); [|apply grows_throw|apply grows_ret].
  apply grows_bind; [apply grows_new_array|]. intros l'.
  apply grows_bind; [apply grows_set_events|]. intros _.
  apply grows_bind; [apply grows_get|]. intros w'.
  case_bool_decide; [apply grows_set_events | apply grows_ret].
Qed.

(** ** Reasoning about methods *)

Ltac proj_simpl := unfold completion, world_of, record_of in *; simpl in *.

Lemma bind_ext_at {A B} (m : M A) (k1 k2 : A → M B) w :
  (∀ a w1 tr1, m w = (Normal a, w1, tr1) → k1 a w1 = k2 a w1) →
  bind m k1 w = bind m k2 w.
Proof.
  intros H. unfold bind. destruct (m w) as [[[a|e] w1] tr1]; [|done].
  by rewrite (H a w1 tr1).
Qed.

Lemma bind_assoc_at {A B C} (m : M A) (k : A → M B) (k' : B → M C) w :
  bind (bind m k) k' w = bind m (λ a, bind (k a) k') w.
Proof.
  unfold bind. destruct (m w) as [[[a|e] w1] tr1]; [|done].
  destruct (k a w1) as [[[b|e] w2] tr2]; [|done].
  destruct (k' b w2) as [[c w3] tr3]. by rewrite app_assoc.
Qed.

Lemma ret_bind_at {A B} (a : A) (k : A → M B) w : bind (ret a) k w = k a w.
Proof. unfold bind, ret. by destruct (k a w) as [[c w1] tr1]. Qed.

Lemma called_app tr1 tr2 : called (tr1 ++ tr2) = called tr1 ++ called tr2.
Proof. apply omap_app. Qed.

Lemma published_app tr1 tr2 :
  published (tr1 ++ tr2) = published tr1 ++ published tr2.
Proof. apply omap_app. Qed.

(** ** What the bus finds under a name *)

Lemma events_get_Some w t l : events w !! t = Some l → events_get w t = Array l.
Proof. intros H. unfold events_get. by rewrite H. Qed.

Lemma events_get_None w t :
  events w !! t = None →
  events_get w t = if inherited t then NotArray else Missing.
Proof. intros H. unfold events_get. by rewrite H. Qed.

Lemma usable_name w t : inherited t = false → usable w t.
Proof.
  intros Hi. unfold usable, events_get. rewrite Hi.
  by destruct (events w !! t).
Qed.


Lemma usable_cases w t :
  usable w t →
  (∃ l, events w !! t = Some l) ∨ (events w !! t = None ∧ inherited t = false).
Proof.
  unfold usable, events_get. destruct (events w !! t) as [l|]; [by eauto|].
  destruct (inherited t); [done|]. by right.
Qed.

Lemma not_usable w t :
  ¬ usable w t ↔ events w !! t = None ∧ inherited t = true.
Proof.
  unfold usable, events_get. destruct (events w !! t) as [l|].
  - split; [intros H; exfalso; by apply H|by intros [? _]].
  - destruct (inherited t); split; try done.
    + intros _ H. by apply H.
    + intros H. exfalso. by apply H.
    + by intros [_ ?].
Qed.

Section BusFacts.

Variable code : hid → value → M unit.

Lemma deliver_normal t p h w : completion (deliver code t p h w) = Normal tt.
Proof.
  unfold deliver, try_catch, scope, console_error, completion.
  destruct (code h p w) as [[[[]|e] w1] tr1]; done.
Qed.

Lemma deliver_called t p h w :
  called (record_of (deliver code t p h w)) = [(h, p)].
Proof.
  unfold deliver, try_catch, scope, console_error, record_of.
  destruct (code h p w) as [[[[]|e] w1] tr1]; done.
Qed.

Lemma deliver_world t p h w :
  world_of (deliver code t p h w) = world_of (code h p w).
Proof.
  unfold deliver, try_catch, scope, console_error, world_of.
  destruct (code h p w) as [[[[]|e] w1] tr1]; done.
Qed.


Lemma dispatch_called t p hs w :
  called (record_of (dispatch code t p hs w)) = (λ h, (h, p)) <$> hs.
Proof.
  revert w. induction hs as [|h hs IH]; intros w; [done|].
  simpl. unfold bind.
  pose proof (deliver_normal t p h w) as Hn.
  pose proof (deliver_called t p h w) as Hc.
  destruct (deliver code t p h w) as [[c w1] tr1]. proj_simpl. subst c.
  specialize (IH w1). destruct (dispatch code t p hs w1) as [[c w2] tr2].
  proj_simpl. by rewrite called_app, Hc, IH.
Qed.


(** The callback of [emit] returns normally whatever the listener does,
    so [forEach] never stops early and [emit] never throws. *)
Lemma forEach_from_normal l t p n k w :
  completion (forEach_from l (deliver code t p) n k w) = Normal tt.
Proof.
  revert k w. induction n as [|n IH]; intros k w; [done|].
  simpl. destruct (arrays w !! l ≫= (.!! k)) as [x|]; [|apply IH].
  unfold bind. pose proof (deliver_normal t p x w) as Hd.
  destruct (deliver code t p x w) as [[c w1] tr1]. proj_simpl. subst c.
  specialize (IH (S k) w1).
  destruct (forEach_from l (deliver code t p) n (S k) w1) as [[c w2] tr2].
  exact IH.
Qed.

Lemma emit_normal t p w :
  usable w t → completion (emit code t p w) = Normal tt.
Proof.
  unfold usable, emit, scope, bind, get, completion.
  destruct (events_get w t) as [l| |]; [|done..]. intros _. simpl.
  unfold forEach.
  pose proof (forEach_from_normal l t p
    (length (default [] (arrays w !! l))) 0 w) as H.
  unfold deliver in H.
  destruct (forEach_from l _ _ 0 w) as [[c w1] tr1]. exact H.
Qed.

Lemma emit_record t p w :
  ∃ d, record_of (emit code t p w) = [Published t p d].
Proof.
  unfold emit, scope, record_of.
  destruct (bind get _ w) as [[c w1] tr1]. by exists tr1.
Qed.

Lemma emit_published t p w : published (record_of (emit code t p w)) = [(t, p)].
Proof. destruct (emit_record t p w) as [d ->]. done. Qed.

(** With no entry for the name, [emit] calls no one and changes nothing. *)
Lemma emit_no_entry t p w :
  events w !! t = None → inherited t = false →
  emit code t p w = (Normal tt, w, [Published t p []]).
Proof.
  intros H Hi. unfold emit, scope, bind, get.
  by rewrite (events_get_None w t H), Hi.
Qed.

(** Under a name the table only inherits, [emit] throws, having called no
    one and changed nothing. *)
Lemma emit_unusable t p w :
  ¬ usable w t →
  emit code t p w
  = (Throw (TypeError "this.events[eventName].forEach is not a function"),
     w, [Published t p []]).
Proof.
  intros H. apply not_usable in H as [H Hi]. unfold emit, scope, bind, get.
  by rewrite (events_get_None w t H), Hi.
Qed.

End BusFacts.

Section SnapshotFacts.

Variable code : hid → value → M unit.

(** The listeners reach the arrays of the bus only through [on], [off]
    and [emit]: whatever a listener does, an array that existed keeps its
    elements. *)
Hypothesis code_grows : ∀ h p, grows (code h p).

Lemma grows_deliver t p h : grows (deliver code t p h).
Proof.
  unfold deliver. apply grows_try_catch.
  - apply grows_scope, code_grows.
  - intros e. apply grows_console_error.
Qed.

Lemma grows_dispatch t p hs : grows (dispatch code t p hs).
Proof.
  induction hs as [|h hs IH]; simpl; [apply grows_ret|].
  apply grows_bind; [apply grows_deliver | intros _; exact IH].
Qed.

(** [forEach], started on an array holding [xs], calls the elements of
    [xs] whatever is pushed onto the array meanwhile. *)
Lemma forEach_from_dispatch l t p xs n k w0 w :
  arrays w0 !! l = Some xs → arrays_grow w0 w →
  length xs = (k + n)%nat →
  forEach_from l (deliver code t p) n k w = dispatch code t p (drop k xs) w.
Proof.
  intros Hxs. revert k w. induction n as [|n IH]; intros k w Hw Hlen.
  - rewrite drop_ge by lia. done.
  - destruct (Hw _ _ Hxs) as [ys Hys].
    destruct (lookup_lt_is_Some_2 xs k) as [x Hx]; [lia|].
    rewrite (drop_S _ _ _ Hx). simpl.
    rewrite Hys. simpl. rewrite lookup_app_l by lia. rewrite Hx.
    apply bind_ext_at. intros [] w1 tr1 Hd.
    apply IH; [|lia].
    eapply arrays_grow_trans; [exact Hw|].
    pose proof (grows_deliver t p x w) as Hg. rewrite Hd in Hg. exact Hg.
Qed.

(** [emit] is publishing to the snapshot. *)
Lemma emit_snapshot t p w :
  usable w t → emit code t p w = publish_snapshot code t p w.
Proof.
  intros Hu. unfold emit, publish_snapshot, scope, listeners.
  unfold bind, get. simpl.
  destruct (events w !! t) as [l|] eqn:Ht.
  2: { destruct (usable_cases w t Hu) as [[l Hl]|[_ Hi]]; [congruence|].
       by rewrite (events_get_None w t Ht), Hi. }
  rewrite (events_get_Some w t l Ht).
  unfold forEach. destruct (arrays w !! l) as [xs|] eqn:Hl; [|done].
  simpl. change (λ listener, try_catch _ _) with (deliver code t p).
  rewrite (forEach_from_dispatch l t p xs (length xs) 0 w w Hl
             (arrays_grow_refl w) eq_refl).
  rewrite drop_0. by destruct (dispatch code t p xs w) as [[c w1] tr1].
Qed.

Lemma grows_emit t p : grows (emit code t p).
Proof.
  intros w. destruct (decide (usable w t)) as [Hu|Hu].
  - rewrite emit_snapshot by done. unfold publish_snapshot.
    apply (grows_scope _ (dispatch code t p (listeners w t))), grows_dispatch.
  - rewrite (emit_unusable code t p w Hu). apply arrays_grow_refl.
Qed.

End SnapshotFacts.

(** ** [on] and [off] *)

(** What [on] does when the name has an entry, when it has none and is not
    inherited, and when it is only inherited. *)
Lemma on_entry_eq t h l w :
  events w !! t = Some l →
  on t h w
  = (Normal tt,
     set_arrays (λ a, match a !! l with
                      | Some xs => <[l := xs ++ [h]]> a
                      | None => a
                      end) w, []).
Proof.
  intros Ht. unfold on, bind, get, modify, push, ret. simpl.
  rewrite (events_get_Some w t l Ht). simpl.
  by rewrite (events_get_Some w t l Ht).
Qed.

Lemma on_no_entry_eq t h w :
  events w !! t = None → inherited t = false →
  on t h w
  = (Normal tt,
     set_events <[t := length (arrays w)]> (set_arrays (λ a, a ++ [[h]]) w),
     []).
Proof.
  intros Ht Hi. unfold on, bind, get, new_array, modify, push, ret. simpl.
  rewrite (events_get_None w t Ht), Hi. simpl.
  unfold events_get. simpl. rewrite lookup_insert_eq. simpl.
  unfold set_arrays, set_events. simpl.
  rewrite lookup_app_r by lia. rewrite Nat.sub_diag. simpl.
  rewrite insert_app_r_alt by lia. rewrite Nat.sub_diag. done.
Qed.

Lemma on_unusable t h w :
  ¬ usable w t →
  on t h w
  = (Throw (TypeError "this.events[eventName].push is not a function"), w, []).
Proof.
  intros H. apply not_usable in H as [H Hi].
  unfold on, bind, get, ret, throw. simpl.
  rewrite (events_get_None w t H), Hi. simpl.
  by rewrite (events_get_None w t H), Hi.
Qed.

Lemma on_listeners t h w :
  bus_wf w → usable w t →
  listeners (world_of (on t h w)) t = listeners w t ++ [h].
Proof.
  intros Hwf Hu. destruct (usable_cases w t Hu) as [[l Ht]|[Ht Hi]].
  - rewrite (on_entry_eq t h l w Ht). unfold listeners. proj_simpl.
    rewrite Ht.
    destruct (lookup_lt_is_Some_2 (arrays w) l (Hwf _ _ Ht)) as [xs Hxs].
    rewrite Hxs. simpl. rewrite list_lookup_insert_eq; [done|].
    by eapply lookup_lt_Some.
  - rewrite (on_no_entry_eq t h w Ht Hi). unfold listeners. proj_simpl.
    rewrite Ht, lookup_insert_eq.
    rewrite lookup_app_r by lia. by rewrite Nat.sub_diag.
Qed.

Lemma on_result t h w :
  usable w t → completion (on t h w) = Normal tt ∧ record_of (on t h w) = [].
Proof.
  intros Hu. destruct (usable_cases w t Hu) as [[l Ht]|[Ht Hi]].
  - by rewrite (on_entry_eq t h l w Ht).
  - by rewrite (on_no_entry_eq t h w Ht Hi).
Qed.

(** What [off] does when the name has an entry. *)
Lemma off_entry_eq t h l w :
  events w !! t = Some l →
  let xs := filter (λ x, x ≠ h) (default [] (arrays w !! l)) in
  let w1 := set_events <[t := length (arrays w)]>
              (set_arrays (λ a, a ++ [xs]) w) in
  off t h w
  = (Normal tt, if bool_decide (xs = []) then set_events (delete t) w1 else w1, []).
Proof.
  intros Ht xs w1. unfold off, bind, get, new_array, modify, ret. simpl.
  rewrite (events_get_Some w t l Ht). simpl. fold xs. fold w1.
  assert (Hl : listeners w1 t = xs).
  { unfold listeners, w1. simpl. rewrite lookup_insert_eq.
    rewrite lookup_app_r by lia. by rewrite Nat.sub_diag. }
  rewrite Hl. destruct xs as [|x xs']; done.
Qed.

Lemma off_no_entry t h w :
  events w !! t = None → inherited t = false → off t h w = (Normal tt, w, []).
Proof.
  intros Ht Hi. unfold off, bind, get, ret. simpl.
  by rewrite (events_get_None w t Ht), Hi.
Qed.

Lemma off_unusable t h w :
  ¬ usable w t →
  off t h w
  = (Throw (TypeError "this.events[eventName].filter is not a function"),
     w, []).
Proof.
  intros H. apply not_usable in H as [H Hi].
  unfold off, bind, get, ret, throw. simpl.
  by rewrite (events_get_None w t H), Hi.
Qed.

(** Without an entry [off] leaves the state as it is, whether it returns or
    throws. *)
Lemma off_no_entry_world t h w :
  events w !! t = None → world_of (off t h w) = w.
Proof.
  intros Ht. destruct (inherited t) eqn:Hi.
  - by rewrite off_unusable by (apply not_usable; done).
  - by rewrite off_no_entry.
Qed.

Lemma off_listeners t h w :
  listeners (world_of (off t h w)) t = filter (λ x, x ≠ h) (listeners w t).
Proof.
  destruct (events w !! t) as [l|] eqn:Ht.
  - rewrite (off_entry_eq t h l w Ht). unfold listeners at 2. rewrite Ht.
    proj_simpl. case_bool_decide as Hxs; unfold listeners; simpl.
    + by rewrite lookup_delete_eq.
    + rewrite lookup_insert_eq. rewrite lookup_app_r by lia.
      by rewrite Nat.sub_diag.
  - rewrite (off_no_entry_world t h w Ht). unfold listeners. by rewrite Ht.
Qed.

(** After [off] the name has an entry exactly when a listener is left. *)
Lemma off_entry t h w :
  is_Some (events w !! t) →
  events (world_of (off t h w)) !! t = None
  ↔ filter (λ x, x ≠ h) (listeners w t) = [].
Proof.
  intros [l Ht]. rewrite (off_entry_eq t h l w Ht).
  unfold listeners. rewrite Ht. proj_simpl.
  case_bool_decide as Hxs; simpl.
  - by rewrite lookup_delete_eq.
  - by rewrite lookup_insert_eq.
Qed.

Lemma off_result t h w :
  usable w t →
  completion (off t h w) = Normal tt ∧ record_of (off t h w) = [].
Proof.
  intros Hu. destruct (usable_cases w t Hu) as [[l Ht]|[Ht Hi]].
  - by rewrite (off_entry_eq t h l w Ht).
  - by rewrite (off_no_entry t h w Ht Hi).
Qed.

(** The listeners of the other names are left as they are. *)
Lemma off_other t t' h w :
  bus_wf w → t ≠ t' → listeners (world_of (off t h w)) t' = listeners w t'.
Proof.
  intros Hwf Hne. destruct (events w !! t) as [l|] eqn:Ht.
  - rewrite (off_entry_eq t h l w Ht). proj_simpl.
    assert (Hkeep : ∀ l' ys, (l' < length (arrays w))%nat →
              (arrays w ++ [ys]) !! l' = arrays w !! l').
    { intros l' ys Hlt. by rewrite lookup_app_l. }
    case_bool_decide; unfold listeners; simpl.
    + rewrite lookup_delete_ne, lookup_insert_ne by done.
      destruct (events w !! t') as [l'|] eqn:Ht'; [|done].
      by rewrite Hkeep by (eapply Hwf; eauto).
    + rewrite lookup_insert_ne by done.
      destruct (events w !! t') as [l'|] eqn:Ht'; [|done].
      by rewrite Hkeep by (eapply Hwf; eauto).
  - by rewrite (off_no_entry_world t h w Ht).
Qed.

Lemma bus_wf_empty t : bus_wf (empty_world t).
Proof. intros k l H. simpl in H. by rewrite lookup_empty in H. Qed.

Lemma bus_wf_on t h w : bus_wf w → bus_wf (world_of (on t h w)).
Proof.
  intros Hwf. destruct (decide (usable w t)) as [Hu|Hu].
  2: { by rewrite (on_unusable t h w Hu). }
  destruct (usable_cases w t Hu) as [[l Ht]|[Ht Hi]].
  - rewrite (on_entry_eq t h l w Ht). proj_simpl.
    intros t' l' H. simpl in *.
    destruct (arrays w !! l); [rewrite length_insert|]; by eapply Hwf.
  - rewrite (on_no_entry_eq t h w Ht Hi). proj_simpl.
    intros t' l' H. simpl in *.
    rewrite length_app. simpl.
    destruct (decide (t = t')) as [->|Hne].
    + rewrite lookup_insert_eq in H. assert (l' = length (arrays w)) by congruence. lia.
    + rewrite lookup_insert_ne in H by done.
      pose proof (Hwf _ _ H) as Hlt. lia.
Qed.

Lemma bus_wf_off t h w : bus_wf w → bus_wf (world_of (off t h w)).
Proof.
  intros Hwf. destruct (events w !! t) as [l|] eqn:Ht.
  - rewrite (off_entry_eq t h l w Ht). proj_simpl.
    case_bool_decide as Hxs; intros t' l' Hl; simpl in *; rewrite length_app; simpl.
    + destruct (decide (t = t')) as [->|Hne].
      * by rewrite lookup_delete_eq in Hl.
      * rewrite lookup_delete_ne, lookup_insert_ne in Hl by done.
        pose proof (Hwf _ _ Hl) as Hlt. lia.
    + destruct (decide (t = t')) as [->|Hne].
      * rewrite lookup_insert_eq in Hl. assert (l' = length (arrays w)) by congruence. lia.
      * rewrite lookup_insert_ne in Hl by done.
        pose proof (Hwf _ _ Hl) as Hlt. lia.
  - by rewrite (off_no_entry_world t h w Ht).
Qed.

Lemma elem_of_getEvents t w : t ∈ getEvents w ↔ is_Some (events w !! t).
Proof.
  unfold getEvents. rewrite list_elem_of_fmap. split.
  - intros [[k v] [-> Hin]]. apply elem_of_map_to_list in Hin. eauto.
  - intros [v Hv]. exists (t, v). split; [done|]. by apply elem_of_map_to_list.
Qed.

Lemma emit_no_listeners code t p w :
  usable w t → listeners w t = [] →
  emit code t p w = (Normal tt, w, [Published t p []]).
Proof.
  intros Hu Hl. destruct (usable_cases w t Hu) as [[l Ht]|[Ht Hi]].
  - unfold emit, scope, bind, get, forEach. simpl.
    rewrite (events_get_Some w t l Ht).
    unfold listeners in Hl. rewrite Ht in Hl. rewrite Hl. done.
  - by apply emit_no_entry.
Qed.



Lemma emit_calls_snapshot code t p w :
  (∀ h p, grows (code h p)) →
  ∃ d, record_of (emit code t p w) = [Published t p d]
       ∧ called d = (λ h, (h, p)) <$> listeners w t.
Proof.
  intros Hg. destruct (decide (usable w t)) as [Hu|Hu].
  - rewrite emit_snapshot by done. unfold publish_snapshot, scope.
    pose proof (dispatch_called code t p (listeners w t) w) as Hc.
    destruct (dispatch code t p (listeners w t) w) as [[c w1] tr1].
    proj_simpl. eauto.
  - rewrite (emit_unusable code t p w Hu). exists []. split; [done|].
    apply not_usable in Hu as [Ht _]. unfold listeners. by rewrite Ht.
Qed.

Lemma sample_code_grows h p : grows (sample_code h p).
Proof.
  destruct h as [|[|[|[|h]]]]; simpl.
  - apply grows_ret.
  - apply grows_bind; [apply grows_on | intros _; apply grows_off].
  - apply grows_throw.
  - apply grows_on.
  - apply grows_ret.
Qed.

(** ** The claims on the event bus *)

(** C6. [emit] delivers the payload to exactly the listeners that the name
    has when the call starts, each once, in the order of the array, whatever
    the listeners subscribe or unsubscribe while they run: where the bus
    finds an array or nothing under the name, [emit] is publishing to the
    snapshot. A subscription [on] makes puts the listener after those
    already there, so that this order is the order of subscription. Under a
    name that the table only inherits from [Object.prototype] there is
    nothing to deliver to: [on] throws and subscribes no one, and [emit]
    calls no one. *)
Theorem emit_delivers_to_snapshot
    (code : hid → value → M unit) (eventName : string) (payload : value)
    (w : World) :
  (∀ h p, grows (code h p)) →
  (∃ d, record_of (emit code eventName payload w)
          = [Published eventName payload d]
        ∧ called d = (λ h, (h, payload)) <$> listeners w eventName)
  ∧ (usable w eventName →
       emit code eventName payload w = publish_snapshot code eventName payload w)
  ∧ (∀ h, bus_wf w → usable w eventName →
       completion (on eventName h w) = Normal tt
       ∧ listeners (world_of (on eventName h w)) eventName
         = listeners w eventName ++ [h])
  ∧ (∀ h, ¬ usable w eventName →
       listeners w eventName = []
       ∧ on eventName h w
         = (Throw (TypeError "this.events[eventName].push is not a function"),
            w, [])
       ∧ emit code eventName payload w
         = (Throw (TypeError
                     "this.events[eventName].forEach is not a function"),
            w, [Published eventName payload []])).
Proof.
  intros Hg. split; [by apply emit_calls_snapshot|].
  split; [intros Hu; by apply emit_snapshot|]. split.
  - intros h Hwf Hu. split; [by apply on_result|by apply on_listeners].
  - intros h Hu. split; [|split].
    + apply not_usable in Hu as [Ht _]. unfold listeners. by rewrite Ht.
    + by apply on_unusable.
    + by apply emit_unusable.
Qed.

Lemma emit_delivers_to_snapshot_witness :
  (∀ h p, grows (sample_code h p))
  ∧ listeners sample_world "a" = [1; 2; 3]%nat
  ∧ (∃ d, record_of (emit sample_code "a" (VStr "x") sample_world)
            = [Published "a" (VStr "x") d]
          ∧ called d = [(1, VStr "x"); (2, VStr "x"); (3, VStr "x")]%nat)
  ∧ listeners (world_of (emit sample_code "a" (VStr "x") sample_world)) "a"
    = [1; 2; 4]%nat.
Proof.
  split; [exact sample_code_grows|]. split; [reflexivity|].
  split; [|reflexivity].
  exact (proj1
    (emit_delivers_to_snapshot sample_code "a" (VStr "x") sample_world
       sample_code_grows)).
Defined.




(** C8, as worded, fails, in two ways. With the same listener subscribed
    twice to a name, [off] leaves no subscription of it (and drops the
    name), where removing one subscription would leave one. And under
    "constructor", a name that the table inherits from [Object.prototype]
    and that has no listener, [off] and [emit] throw to their caller. *)
Lemma off_removes_both_subscriptions :
  let w := world_of ((on "a" 7 ;;; on "a" 7)%nat (empty_world 0)) in
  listeners w "a" = [7; 7]%nat
  ∧ remove_one 7%nat (listeners w "a") = [7]%nat
  ∧ listeners (world_of (off "a" 7%nat w)) "a" = []
  ∧ listeners (world_of (off "a" 7%nat w)) "a" ≠ remove_one 7%nat (listeners w "a")
  ∧ listeners w "constructor" = []
  ∧ completion (off "constructor" 7%nat w)
    = Throw (TypeError "this.events[eventName].filter is not a function")
  ∧ completion (emit no_code "constructor" VNull w)
    = Throw (TypeError "this.events[eventName].forEach is not a function").
Proof. repeat split; try reflexivity. discriminate. Qed.

(** C8, amended. Under a name where the bus finds an array or nothing,
    [off] removes every subscription of the listener to the name and
    nothing else: the other listeners of the name stay, in their order, and
    the other names keep their listeners; it returns normally and publishes
    nothing. A name left without listener is no longer among the active
    names; and [emit] on such a name without listener returns normally,
    calls no one and leaves the state as it is. Under a name that the table
    only inherits from [Object.prototype], which has no listener, [off] and
    [emit] throw a [TypeError] and leave the state as it is. *)
Theorem off_removes_listener
    (code : hid → value → M unit) (eventName : string) (listener : hid)
    (payload : value) (w : World) :
  bus_wf w →
  let w' := world_of (off eventName listener w) in
  (usable w eventName →
     completion (off eventName listener w) = Normal tt
     ∧ record_of (off eventName listener w) = [])
  ∧ listeners w' eventName = filter (λ x, x ≠ listener) (listeners w eventName)
  ∧ (∀ other, eventName ≠ other → listeners w' other = listeners w other)
  ∧ (listeners w' eventName = [] → eventName ∉ getEvents w')
  ∧ (∀ w0, usable w0 eventName → listeners w0 eventName = [] →
       emit code eventName payload w0
       = (Normal tt, w0, [Published eventName payload []]))
  ∧ (∀ w0, ¬ usable w0 eventName →
       listeners w0 eventName = [] ∧ (eventName ∉ getEvents w0)
       ∧ off eventName listener w0
         = (Throw (TypeError
                     "this.events[eventName].filter is not a function"),
            w0, [])
       ∧ emit code eventName payload w0
         = (Throw (TypeError
                     "this.events[eventName].forEach is not a function"),
            w0, [Published eventName payload []])).
Proof.
  intros Hwf w'.
  split; [intros Hu; by apply off_result|].
  split; [apply off_listeners|].
  split; [intros other Hne; by apply off_other|].
  split; [|split].
  - intros Hnil. rewrite elem_of_getEvents. intros Hsome.
    destruct (events w !! eventName) as [l|] eqn:Ht.
    + assert (Hnone : events w' !! eventName = None).
      { apply off_entry; [by eauto|]. unfold w' in Hnil.
        by rewrite off_listeners in Hnil. }
      rewrite Hnone in Hsome. by destruct Hsome.
    + unfold w' in Hsome. rewrite (off_no_entry_world _ _ _ Ht) in Hsome.
      rewrite Ht in Hsome. by destruct Hsome.
  - intros w0 Hu Hl. by apply emit_no_listeners.
  - intros w0 Hu. pose proof Hu as Hu'. apply not_usable in Hu' as [Ht _].
    split; [unfold listeners; by rewrite Ht|].
    split; [rewrite elem_of_getEvents, Ht; by intros [? ?]|].
    split; [by apply off_unusable|by apply emit_unusable].
Qed.

Lemma bus_wf_sample : bus_wf sample_world.
Proof.
  intros t l Ht. change (events sample_world) with ({["a" := 0%nat]} : gmap string loc) in Ht.
  apply lookup_singleton_Some in Ht as [_ <-].
  change (arrays sample_world) with [[1; 2; 3]%nat]. simpl. lia.
Qed.

Lemma off_removes_listener_witness :
  (bus_wf sample_world
   ∧ listeners (world_of (off "a" 2%nat sample_world)) "a" = [1; 3]%nat
   ∧ listeners (world_of (off "a" 2%nat sample_world)) "a"
     = filter (λ x, x ≠ 2%nat) (listeners sample_world "a"))
  ∧ (let w := world_of (on "c" 5%nat (empty_world 0)) in
     let w' := world_of (off "c" 5%nat w) in
     bus_wf w ∧ getEvents w = ["c"] ∧ listeners w' "c" = []
     ∧ ("c" ∉ getEvents w')
     ∧ emit sample_code "c" VNull w' = (Normal tt, w', [Published "c" VNull []])).
Proof.
  split.
  - split; [exact bus_wf_sample|]. split; [reflexivity|].
    exact (proj1 (proj2
      (off_removes_listener sample_code "a" 2%nat VNull sample_world
         bus_wf_sample))).
  - intros w w'.
    assert (Hwf : bus_wf w) by (apply bus_wf_on, bus_wf_empty).
    pose proof (off_removes_listener sample_code "c" 5%nat VNull w Hwf)
      as (_ & _ & _ & Hgone & Hsilent & _).
    split; [exact Hwf|]. split; [reflexivity|]. split; [reflexivity|].
    split; [apply Hgone; reflexivity|].
    apply Hsilent; [by apply usable_name|reflexivity].
Defined.

(** ** The claims on the order registry *)

Lemma append_nonempty s1 c s2 : s1 +:+ String c s2 ≠ "".
Proof. by destruct s1. Qed.

Lemma toISOString_nonempty t : toISOString t ≠ "".
Proof.
  unfold toISOString. destruct (civil_from_days (t / 86400000)) as [[y m] d].
  apply append_nonempty.
Qed.




(** C4, as worded, fails: an order whose identifier is the number 0 has
    its three fields, and no order is stored under 0, yet [createOrder]
    fails on missing fields, stores nothing and publishes nothing. *)
Lemma createOrder_rejects_zero_id :
  let orderData : obj :=
    <["orderId" := VInt 0]>
      (<["email" := VStr "user@example.com"]>
        (<["item" := VStr "MacBook Pro"]> ∅)) in
  let w := empty_world 0 in
  is_Some (orderData !! "orderId") ∧ is_Some (orderData !! "email")
  ∧ is_Some (orderData !! "item")
  ∧ orders w !! prop orderData "orderId" = None
  ∧ createOrder no_code orderData w = (Throw ValidationError, w, []).
Proof.
  intros orderData w.
  split; [by eexists|]. split; [by eexists|]. split; [by eexists|].
  split; [reflexivity|]. vm_compute. reflexivity.
Qed.

(** C4, amended. On an input whose three required fields are truthy (there,
    and none of them 0, NaN, the empty string, null, undefined or false),
    whose identifier is not stored, [createOrder] makes one new record: the
    input with a timestamp that is not empty and the status "created".
    Before anything is published the record is stored under the identifier.
    The method publishes "order:created" once, with this record as payload,
    and returns the same record. *)
Theorem createOrder_accepts
    (code : hid → value → M unit) (orderData : obj) (w : World) :
  ¬ missing orderData "orderId" → ¬ missing orderData "email" →
  ¬ missing orderData "item" →
  orders w !! prop orderData "orderId" = None →
  let timestamp := toISOString (clock w) in
  let enrichedOrder : obj :=
    <["status" := VStr "created"]> (<["timestamp" := VStr timestamp]> orderData) in
  let record := length (objects w) in
  let w1 := set_orders <[prop orderData "orderId" := record]>
              (set_objects (λ os, os ++ [enrichedOrder]) w) in
  let r := createOrder code orderData w in
  timestamp ≠ ""
  ∧ prop enrichedOrder "timestamp" = VStr timestamp
  ∧ prop enrichedOrder "status" = VStr "created"
  ∧ (∀ k, k ≠ "status" → k ≠ "timestamp" → enrichedOrder !! k = orderData !! k)
  ∧ objects w1 !! record = Some enrichedOrder
  ∧ orders w1 !! prop orderData "orderId" = Some record
  ∧ completion r = Normal (VRef record)
  ∧ published (record_of r) = [("order:created", VRef record)]
  ∧ record_of r = record_of (emit code "order:created" (VRef record) w1)
  ∧ world_of r = world_of (emit code "order:created" (VRef record) w1).
Proof.
  intros H1 H2 H3 Hnew timestamp enrichedOrder record w1 r.
  split; [apply toISOString_nonempty|].
  split; [unfold prop, enrichedOrder; by simplify_map_eq|].
  split; [unfold prop, enrichedOrder; by simplify_map_eq|].
  split; [intros k Hk1 Hk2; unfold enrichedOrder; by simplify_map_eq|].
  split.
  { unfold w1, record. simpl. rewrite lookup_app_r by lia.
    by rewrite Nat.sub_diag. }
  split; [unfold w1; simpl; by rewrite lookup_insert_eq|].
  assert (Hr : r = (emit code "order:created" (VRef record) ;;; ret (VRef record)) w1).
  { unfold r, createOrder, missing in *.
    apply not_false_is_true in H1, H2, H3. rewrite H1, H2, H3. simpl.
    unfold bind at 1. unfold get. simpl. rewrite Hnew.
    rewrite bool_decide_eq_false_2 by (by intros [? ?]).
    unfold bind at 1. unfold now_iso. simpl.
    unfold bind at 1. unfold new_object. simpl.
    unfold bind at 1. unfold modify. simpl.
    fold timestamp. fold enrichedOrder. fold record. fold w1.
    by destruct ((emit code "order:created" (VRef record) ;;; ret (VRef record)) w1)
      as [[c w2] tr2]. }
  pose proof (emit_normal code "order:created" (VRef record) w1
                (usable_name w1 "order:created" eq_refl)) as Hn.
  pose proof (emit_published code "order:created" (VRef record) w1) as Hp.
  rewrite Hr. unfold bind, ret.
  destruct (emit code "order:created" (VRef record) w1) as [[c w2] tr2].
  proj_simpl. subst c. simpl. rewrite app_nil_r. done.
Qed.

Lemma createOrder_accepts_witness :
  let r := createOrder no_code (sample_order "ORD123") (empty_world 1700000000123) in
  orders (empty_world 1700000000123) !! VStr "ORD123" = None
  ∧ completion r = Normal (VRef 0%nat)
  ∧ published (record_of r) = [("order:created", VRef 0%nat)]
  ∧ objects (world_of r) !! 0%nat
    = Some (<["status" := VStr "created"]>
              (<["timestamp" := VStr "2023-11-14T22:13:20.123Z"]>
                (sample_order "ORD123"))).
Proof.
  intros r. split; [reflexivity|].
  pose proof (createOrder_accepts no_code (sample_order "ORD123")
    (empty_world 1700000000123)) as H.
  destruct H as (_ & _ & _ & _ & _ & _ & Hc & Hp & _);
    [discriminate..|reflexivity|].
  split; [exact Hc|]. split; [exact Hp|]. vm_compute. reflexivity.
Defined.

(** ** Facts on the services *)

Lemma get_prop_object l o k w :
  objects w !! l = Some o → get_prop (VRef l) k w = (Normal (prop o k), w, []).
Proof. intros H. unfold get_prop. by rewrite H. Qed.

Lemma get_prop_world v k w : world_of (get_prop v k w) = w.
Proof. by destruct v. Qed.

Lemma bind_ret_at (m : M unit) w : bind m (λ _, ret tt) w = m w.
Proof.
  unfold bind, ret. destruct (m w) as [[[[]|e] w1] tr1]; [|done].
  by rewrite app_nil_r.
Qed.

Lemma publish_all_one code t p w : publish_all code [(t, p)] w = emit code t p w.
Proof. simpl. apply bind_ret_at. Qed.

(** The events of the services have names of their own, none inherited. *)
Lemma publish_all_normal code evs w :
  Forall (λ ev : string * value, inherited ev.1 = false) evs →
  completion (publish_all code evs w) = Normal tt.
Proof.
  intros Hevs. revert w.
  induction Hevs as [|[t p] evs Ht Hevs IH]; intros w; [done|].
  simpl. unfold bind.
  pose proof (emit_normal code t p w (usable_name w t Ht)) as Hn.
  destruct (emit code t p w) as [[c w1] tr1]. proj_simpl. subst c.
  specialize (IH w1). by destruct (publish_all code evs w1) as [[c w2] tr2].
Qed.

Lemma publish_all_published code evs w :
  Forall (λ ev : string * value, inherited ev.1 = false) evs →
  published (record_of (publish_all code evs w)) = evs.
Proof.
  intros Hevs. revert w.
  induction Hevs as [|[t p] evs Ht Hevs IH]; intros w; [done|].
  simpl. unfold bind.
  pose proof (emit_normal code t p w (usable_name w t Ht)) as Hn.
  pose proof (emit_published code t p w) as Hp.
  destruct (emit code t p w) as [[c w1] tr1]. proj_simpl. subst c.
  specialize (IH w1). destruct (publish_all code evs w1) as [[c w2] tr2].
  proj_simpl. by rewrite published_app, Hp, IH.
Qed.

Section Preservation.

Context (P : World → Prop).

Lemma preserves_ret {A} (a : A) : preserves P (ret a).
Proof. by intros w. Qed.

Lemma preserves_throw {A} e : preserves P (@throw A e).
Proof. by intros w. Qed.

Lemma preserves_bind {A B} (m : M A) (k : A → M B) :
  preserves P m → (∀ a, preserves P (k a)) → preserves P (bind m k).
Proof.
  intros Hm Hk w Hw. unfold bind. specialize (Hm w Hw).
  destruct (m w) as [[[a|e] w1] tr1]; [|exact Hm].
  specialize (Hk a w1 Hm). by destruct (k a w1) as [[r w2] tr2].
Qed.

Lemma preserves_get_bind {B} (k : World → M B) :
  (∀ w, P w → P (world_of (k w w))) → preserves P (bind get k).
Proof.
  intros Hk w Hw. unfold bind, get. specialize (Hk w Hw).
  by destruct (k w w) as [[r w2] tr2].
Qed.

Lemma preserves_get_prop v k : preserves P (get_prop v k).
Proof. intros w Hw. by rewrite get_prop_world. Qed.

Lemma preserves_now_iso : preserves P now_iso.
Proof. by intros w. Qed.

Variable code : hid → value → M unit.
Hypothesis code_preserves : ∀ h p, preserves P (code h p).

Lemma preserves_deliver t p h : preserves P (deliver code t p h).
Proof. intros w Hw. rewrite deliver_world. by apply code_preserves. Qed.

Lemma preserves_forEach_from l t p n k :
  preserves P (forEach_from l (deliver code t p) n k).
Proof.
  revert k. induction n as [|n IH]; intros k w Hw; [done|].
  simpl. destruct (arrays w !! l ≫= (.!! k)) as [x|]; [|by apply IH].
  apply (preserves_bind (deliver code t p x)
           (λ _, forEach_from l (deliver code t p) n (S k)));
    [apply preserves_deliver | intros _; apply IH | done].
Qed.

Lemma preserves_emit t p : preserves P (emit code t p).
Proof.
  intros w Hw. unfold emit, scope, bind, get. simpl.
  destruct (events_get w t) as [l| |]; [|done..].
  unfold forEach. change (λ listener, try_catch _ _) with (deliver code t p).
  pose proof (preserves_forEach_from l t p
    (length (default [] (arrays w !! l))) 0 w Hw) as H.
  by destruct (forEach_from l _ _ 0 w) as [[c w1] tr1].
Qed.

End Preservation.

Lemma bind_pure_at {A B} (m : M A) (k : A → M B) w a w1 :
  m w = (Normal a, w1, []) → bind m k w = k a w1.
Proof.
  intros H. unfold bind. rewrite H. by destruct (k a w1) as [[c w2] tr2].
Qed.

(** One step of a method that publishes nothing. *)
Ltac step :=
  erewrite bind_pure_at;
  [| first [ apply get_prop_object; simpl; eassumption | reflexivity ] ].

(** ** Numbers: facts *)

Lemma one_unit_pos : 0 < one_unit.
Proof. unfold one_unit. apply Z.pow_pos_nonneg; lia. Qed.

Lemma num_leb_of_Z a b : num_leb (of_Z a) (of_Z b) = (a <=? b).
Proof.
  unfold of_Z, num_leb. pose proof one_unit_pos.
  destruct (Z.leb_spec a b); [apply Z.leb_le|apply Z.leb_gt]; nia.
Qed.

Lemma of_Z_inj a b : of_Z a = of_Z b → a = b.
Proof.
  unfold of_Z. intros [= H]. pose proof one_unit_pos. nia.
Qed.

(** A number of units that has no more than 53 significant bits, and is in
    the range, is a double: rounding leaves it as it is. *)
Lemma num_round_exact k :
  0 ≤ k → k < 2 ^ 2098 →
  k `mod` 2 ^ Z.max 0 (Z.log2 k - 52) = 0 →
  num_round k = Finite k.
Proof.
  intros Hk Hlt Hmod. unfold num_round, round_ratio.
  rewrite (proj2 (Z.ltb_ge k 0)) by lia.
  unfold nearest. rewrite Z.div_1_r, Z.mul_1_r.
  set (sh := Z.max 0 (Z.log2 k - 52)) in *.
  assert (Hsh : 0 ≤ sh) by lia.
  assert (Hp : 0 < 2 ^ sh) by (apply Z.pow_pos_nonneg; lia).
  rewrite Hmod. change (2 * 0) with 0.
  rewrite (proj2 (Z.ltb_ge (2 ^ sh) 0)) by lia.
  rewrite (proj2 (Z.eqb_neq 0 (2 ^ sh))) by lia. cbn [orb andb].
  assert (Hdiv : k = k / 2 ^ sh * 2 ^ sh).
  { pose proof (Z.div_mod k (2 ^ sh) ltac:(lia)). lia. }
  assert (Hsh' : sh ≤ 2098).
  { pose proof (Z.log2_lt_pow2 k 2098). pose proof (Z.log2_nonneg k).
    destruct (Z.eq_dec k 0) as [->|]; [unfold sh; simpl; lia|].
    unfold sh. lia. }
  rewrite (proj2 (Z.leb_gt _ _)).
  - by rewrite <- Hdiv.
  - apply (Z.mul_lt_mono_pos_r (2 ^ sh)); [done|].
    rewrite <- Hdiv, <- Z.pow_add_r by lia.
    by replace (2098 - sh + sh) with 2098 by lia.
Qed.


(** Rounding a whole number gives a whole number, or Infinity. *)
Lemma num_round_whole n : 0 ≤ n → stock_ok (num_round (n * one_unit)).
Proof.
  intros Hn. destruct (Z.eq_dec n 0) as [->|Hne].
  { left. exists 0. split; [done|]. by apply num_round_exact. }
  pose proof one_unit_pos as Hu.
  unfold num_round, round_ratio.
  rewrite (proj2 (Z.ltb_ge (n * one_unit) 0)) by nia.
  unfold nearest. rewrite Z.div_1_r, Z.mul_1_r.
  assert (Hlog : Z.log2 (n * one_unit) = 1074 + Z.log2 n)
    by (unfold one_unit; apply Z.log2_mul_pow2; lia).
  pose proof (Z.log2_nonneg n) as Hl0.
  rewrite Hlog, Z.max_r by lia.
  set (sh := 1074 + Z.log2 n - 52).
  assert (Hp : 0 < 2 ^ sh) by (apply Z.pow_pos_nonneg; unfold sh; lia).
  set (m := n * one_unit / 2 ^ sh).
  assert (Hm : 0 ≤ m) by (apply Z.div_pos; nia).
  match goal with |- context [if ?c then m + 1 else m] =>
    set (up := c); set (m' := if up then m + 1 else m) end.
  assert (Hm' : 0 ≤ m') by (unfold m'; destruct up; lia).
  destruct (2 ^ (2098 - sh) <=? m'); [by right|]. left.
  destruct (Z.le_gt_cases 1074 sh) as [Hge|Hlt].
  - exists (m' * 2 ^ (sh - 1074)). split.
    + apply Z.mul_nonneg_nonneg; [done|]. apply Z.pow_nonneg. lia.
    + unfold of_Z, one_unit. f_equal.
      rewrite <- Z.mul_assoc, <- Z.pow_add_r by lia. do 2 f_equal. lia.
  - exists n. split; [done|]. unfold of_Z. f_equal.
    assert (Hmod : (n * one_unit) `mod` 2 ^ sh = 0).
    { unfold one_unit.
      replace (2 ^ 1074) with (2 ^ (1074 - sh) * 2 ^ sh)
        by (rewrite <- Z.pow_add_r by (unfold sh; lia); f_equal; lia).
      rewrite Z.mul_assoc. apply Z.mod_mul. lia. }
    unfold m', up. rewrite Hmod. change (2 * 0) with 0.
    rewrite (proj2 (Z.ltb_ge (2 ^ sh) 0)) by lia.
    rewrite (proj2 (Z.eqb_neq 0 (2 ^ sh))) by lia. cbn [orb andb].
    unfold m. pose proof (Z.div_mod (n * one_unit) (2 ^ sh) ltac:(lia)). lia.
Qed.

Lemma stock_ok_nonneg x : stock_ok x → num_leb (of_Z 0) x = true.
Proof.
  intros [(n & Hn & ->)| ->]; [|done].
  rewrite num_leb_of_Z. by apply Z.leb_le.
Qed.

(** Taking one from a stock above 0. *)
Lemma stock_ok_sub_one x :
  stock_ok x → num_leb x (of_Z 0) = false → stock_ok (num_sub x (of_Z 1)).
Proof.
  intros [(n & Hn & ->)| ->] Hpos; [|by right].
  rewrite num_leb_of_Z in Hpos. apply Z.leb_gt in Hpos.
  unfold num_sub, of_Z, num_neg, num_add.
  replace (n * one_unit + - (1 * one_unit)) with ((n - 1) * one_unit) by lia.
  apply num_round_whole. lia.
Qed.

(** Adding a whole number. *)
Lemma stock_ok_add x q : stock_ok x → whole q → stock_ok (num_add x q).
Proof.
  intros [(n & Hn & ->)| ->] (m & Hm & ->); [|by right].
  unfold of_Z, num_add.
  replace (n * one_unit + m * one_unit) with ((n + m) * one_unit) by lia.
  apply num_round_whole. lia.
Qed.

(** ** The claims on the inventory ledger *)

(** A reservation that goes through: the stock and the reservation are
    written first, the events are published then. *)
Lemma checkAndReserveItem_reserves
    (code : hid → value → M unit) (l : loc) (o : obj) (w : World) (item : Item) :
  objects w !! l = Some o →
  inventory w !! prop o "item" = Some item →
  num_leb (stock item) (of_Z 0) = false →
  let item' := {| stock := num_sub (stock item) (of_Z 1); price := price item;
                  category := category item |} in
  let reservation :=
    {| r_item := prop o "item"; r_quantity := 1; r_price := price item;
       r_reservedAt := toISOString (clock w); r_status := "reserved";
       r_fulfilledAt := None |} in
  let w1 := set_reservations <[prop o "orderId" := reservation]>
              (set_inventory <[prop o "item" := item']> w) in
  let alert : obj :=
    <["item" := prop o "item"]>
      (<["currentStock" := VNum (num_sub (stock item) (of_Z 1))]>
        (<["threshold" := VInt (lowStockThreshold w)]> ∅)) in
  checkAndReserveItem code (VRef l) w
  = if num_leb (num_sub (stock item) (of_Z 1)) (of_Z (lowStockThreshold w))
    then publish_all code
           [("inventory:low_stock", VRef (length (objects w)));
            ("order:inventory_reserved", VRef l)]
           (set_objects (λ os, os ++ [alert]) w1)
    else publish_all code [("order:inventory_reserved", VRef l)] w1.
Proof.
  intros Ho Hi Hpos item' reservation w1 alert.
  set (itemName := prop o "item") in *. set (orderId := prop o "orderId") in *.
  unfold checkAndReserveItem. step. step. fold itemName. rewrite Hi.
  rewrite Hpos.
  fold item'. step. step. step. step. step. step.
  change (price item') with (price item).
  change (clock (set_inventory <[itemName:=item']> w)) with (clock w).
  fold itemName orderId. fold reservation. fold w1.
  change (lowStockThreshold w1) with (lowStockThreshold w).
  change (stock item') with (num_sub (stock item) (of_Z 1)).
  destruct (num_leb (num_sub (stock item) (of_Z 1))
              (of_Z (lowStockThreshold w))) eqn:Hlow.
  - rewrite bind_assoc_at. step. rewrite bind_assoc_at. step.
    fold itemName. fold alert. cbn [publish_all].
    apply bind_ext_at. intros [] w2 tr2 _. by rewrite bind_ret_at.
  - rewrite ret_bind_at. by rewrite publish_all_one.
Qed.




Lemma on_frame t h w :
  let w' := world_of (on t h w) in
  objects w' = objects w ∧ orders w' = orders w ∧ inventory w' = inventory w
  ∧ reservations w' = reservations w
  ∧ lowStockThreshold w' = lowStockThreshold w ∧ clock w' = clock w.
Proof.
  destruct (decide (usable w t)) as [Hu|Hu].
  - destruct (usable_cases w t Hu) as [[l Ht]|[Ht Hi]].
    + by rewrite (on_entry_eq t h l w Ht).
    + by rewrite (on_no_entry_eq t h w Ht Hi).
  - by rewrite (on_unusable t h w Hu).
Qed.

Lemma InventoryService_new_fields h1 h2 w :
  let w' := world_of (InventoryService_new h1 h2 w) in
  inventory w' = initial_inventory ∧ reservations w' = ∅
  ∧ lowStockThreshold w' = 5.
Proof.
  unfold InventoryService_new. rewrite (bind_pure_at _ _ w tt _ eq_refl).
  unfold bind.
  pose proof (on_result "order:created" h1) as Hr1.
  pose proof (on_frame "order:created" h1) as Hf1.
  match goal with |- context [on "order:created" h1 ?w0] =>
    specialize (Hr1 w0 (usable_name w0 "order:created" eq_refl));
    specialize (Hf1 w0);
    destruct (on "order:created" h1 w0) as [[c1 w1] tr1] end.
  proj_simpl. destruct Hr1 as [-> ->].
  pose proof (on_frame "order:delivered" h2 w1) as Hf2.
  destruct (on "order:delivered" h2 w1) as [[c2 w2] tr2].
  proj_simpl. destruct Hf1 as (_ & _ & <- & <- & <- & _).
  destruct Hf2 as (_ & _ & <- & <- & <- & _). done.
Qed.

(** C9. A reservation that brings the stock of the item to exactly the
    threshold publishes "inventory:low_stock", with the item, the stock
    left and the threshold as payload, and then "order:inventory_reserved";
    a reservation that leaves the stock one unit above the threshold
    publishes "order:inventory_reserved" only. The threshold the
    constructor sets is 5. *)
Theorem low_stock_boundary
    (code : hid → value → M unit) (l : loc) (o : obj) (w : World) (item : Item) :
  objects w !! l = Some o →
  inventory w !! prop o "item" = Some item →
  num_leb (stock item) (of_Z 0) = false →
  let r := checkAndReserveItem code (VRef l) w in
  let left := num_sub (stock item) (of_Z 1) in
  let alert : obj :=
    <["item" := prop o "item"]>
      (<["currentStock" := VNum left]>
        (<["threshold" := VInt (lowStockThreshold w)]> ∅)) in
  (left = of_Z (lowStockThreshold w) →
     published (record_of r)
     = [("inventory:low_stock", VRef (length (objects w)));
        ("order:inventory_reserved", VRef l)]
     ∧ ∃ w1, objects w1 !! length (objects w) = Some alert
        ∧ r = publish_all code
                [("inventory:low_stock", VRef (length (objects w)));
                 ("order:inventory_reserved", VRef l)] w1)
  ∧ (left = of_Z (lowStockThreshold w + 1) →
     published (record_of r) = [("order:inventory_reserved", VRef l)])
  ∧ ∀ h1 h2 w0, lowStockThreshold (world_of (InventoryService_new h1 h2 w0)) = 5.
Proof.
  intros Ho Hi Hpos r left alert.
  pose proof (checkAndReserveItem_reserves code l o w item Ho Hi Hpos) as H.
  cbv zeta in H. fold r left alert in H.
  split; [|split].
  - intros Heq.
    assert (num_leb left (of_Z (lowStockThreshold w)) = true) as Hle.
    { rewrite Heq, num_leb_of_Z. by apply Z.leb_le. }
    rewrite Hle in H.
    split; [rewrite H; apply publish_all_published; by repeat constructor|].
    eexists. split; [|exact H]. simpl.
    rewrite lookup_app_r by lia. by rewrite Nat.sub_diag.
  - intros Heq.
    assert (num_leb left (of_Z (lowStockThreshold w)) = false) as Hle.
    { rewrite Heq, num_leb_of_Z. apply Z.leb_gt. lia. }
    rewrite Hle in H.
    rewrite H. apply publish_all_published. by repeat constructor.
  - intros h1 h2 w0. apply InventoryService_new_fields.
Qed.

Lemma low_stock_boundary_witness :
  (stock <$> inventory boundary_world !! VStr "Widget" = Some (of_Z 6)
   ∧ lowStockThreshold boundary_world = 5
   ∧ published (record_of (checkAndReserveItem no_code (VRef 2) boundary_world))
     = [("inventory:low_stock", VRef 4); ("order:inventory_reserved", VRef 2)])
  ∧ (stock <$> inventory boundary_world !! VStr "Gadget" = Some (of_Z 7)
     ∧ published (record_of (checkAndReserveItem no_code (VRef 3) boundary_world))
       = [("order:inventory_reserved", VRef 3)]).
Proof.
  split.
  - split; [reflexivity|]. split; [reflexivity|].
    pose proof (low_stock_boundary no_code 2%nat
         (<["orderId" := VStr "W1"]> (<["item" := VStr "Widget"]> ∅))
         boundary_world
         {| stock := of_Z 6; price := literal 9.5; category := "general" |}
         eq_refl eq_refl eq_refl) as H.
    cbv zeta in H. destruct H as [H _].
    assert (num_sub (of_Z 6) (of_Z 1) = of_Z 5) as Heq
      by (vm_compute; reflexivity).
    exact (proj1 (H Heq)).
  - split; [reflexivity|].
    pose proof (low_stock_boundary no_code 3%nat
         (<["orderId" := VStr "G1"]> (<["item" := VStr "Gadget"]> ∅))
         boundary_world
         {| stock := of_Z 7; price := of_Z 0; category := "tools" |}
         eq_refl eq_refl eq_refl) as H.
    cbv zeta in H. destruct H as (_ & H & _).
    assert (num_sub (of_Z 7) (of_Z 1) = of_Z (5 + 1)) as Heq
      by (vm_compute; reflexivity).
    exact (H Heq).
Defined.

(** C10. For a name that is not in the inventory [addStock] does nothing: it
    returns normally, the state, with the inventory, is the one before the
    call, and nothing is published. For an item of the inventory it adds the
    quantity to the stock and publishes "inventory:stock_added" once, with a
    payload whose [total] is the stock after the addition. *)
Theorem addStock_outcomes
    (code : hid → value → M unit) (itemName : value) (quantity : number) (w : World) :
  match inventory w !! itemName with
  | None => addStock code itemName quantity w = (Normal tt, w, [])
  | Some item =>
      let item' := {| stock := num_add (stock item) quantity; price := price item;
                      category := category item |} in
      let msg : obj :=
        <["item" := itemName]>
          (<["added" := VNum quantity]>
            (<["total" := VNum (num_add (stock item) quantity)]> ∅)) in
      let w1 := set_objects (λ os, os ++ [msg])
                  (set_inventory <[itemName := item']> w) in
      addStock code itemName quantity w
      = publish_all code
          [("inventory:stock_added", VRef (length (objects w)))] w1
      ∧ published (record_of (addStock code itemName quantity w))
        = [("inventory:stock_added", VRef (length (objects w)))]
      ∧ objects w1 !! length (objects w) = Some msg
      ∧ prop msg "total" = VNum (num_add (stock item) quantity)
      ∧ stock <$> inventory w1 !! itemName = Some (num_add (stock item) quantity)
  end.
Proof.
  unfold addStock. step.
  destruct (inventory w !! itemName) as [item|] eqn:Hi; [|done].
  cbv zeta. step. step. cbn [stock].
  rewrite publish_all_one.
  split; [done|]. split; [apply emit_published|].
  split; [simpl; rewrite lookup_app_r by lia; by rewrite Nat.sub_diag|].
  split; [done|]. simpl. by rewrite lookup_insert_eq.
Qed.

(** C7, as worded, fails: handling the delivery of a reservation that is
    already fulfilled, one second after the first handling, replaces its
    time of fulfilment. *)
Lemma second_delivery_changes_fulfilledAt :
  let w1 := world_of (checkAndReserveItem no_code (VRef 0) ledger_world) in
  let w2 := advance 1000 (world_of (handleDelivery (VRef 0) w1)) in
  let w3 := world_of (handleDelivery (VRef 0) w2) in
  r_status <$> reservations w2 !! VStr "ORD1" = Some "fulfilled"
  ∧ reservations w2 !! VStr "ORD1" ≫= r_fulfilledAt
    = Some "1970-01-01T00:00:00.000Z"
  ∧ reservations w3 !! VStr "ORD1" ≫= r_fulfilledAt
    = Some "1970-01-01T00:00:01.000Z"
  ∧ w3 ≠ w2.
Proof.
  intros w1 w2 w3. split; [reflexivity|]. split; [reflexivity|].
  split; [reflexivity|]. intros Heq.
  apply (f_equal (λ w, reservations w !! VStr "ORD1" ≫= r_fulfilledAt)) in Heq.
  vm_compute in Heq. discriminate.
Qed.

(** C7, amended. With no reservation under the identifier of the event,
    [handleDelivery] does nothing: it returns normally and the state is the
    one before the call. With a reservation, it returns normally, publishes
    nothing, and changes this reservation only: its status becomes
    "fulfilled" and its time of fulfilment the time of this call, also when
    the reservation was already fulfilled; its other fields are kept. On a
    reservation already fulfilled at this very time the state is the one
    before the call. *)
Theorem handleDelivery_outcomes (l : loc) (o : obj) (w : World) :
  objects w !! l = Some o →
  let orderId := prop o "orderId" in
  let r := handleDelivery (VRef l) w in
  match reservations w !! orderId with
  | None => r = (Normal tt, w, [])
  | Some reservation =>
      let reservation' :=
        {| r_item := r_item reservation;
           r_quantity := r_quantity reservation;
           r_price := r_price reservation;
           r_reservedAt := r_reservedAt reservation;
           r_status := "fulfilled";
           r_fulfilledAt := Some (toISOString (clock w)) |} in
      r = (Normal tt, set_reservations <[orderId := reservation']> w, [])
      ∧ (∀ k, k ≠ orderId →
           reservations (world_of r) !! k = reservations w !! k)
      ∧ (r_status reservation = "fulfilled" →
         r_fulfilledAt reservation = Some (toISOString (clock w)) →
         world_of r = w)
  end.
Proof.
  intros Ho orderId r. unfold r, handleDelivery. step. step. fold orderId.
  destruct (reservations w !! orderId) as [reservation|] eqn:Hr; [|done].
  cbv zeta. step.
  split; [done|]. split.
  - intros k Hk. proj_simpl. by rewrite lookup_insert_ne.
  - intros Hs Hf. proj_simpl. unfold set_reservations.
    rewrite insert_id; [by destruct w|].
    rewrite Hr. f_equal. destruct reservation; simpl in *. by subst.
Qed.

Lemma handleDelivery_outcomes_witness :
  let w1 := world_of (checkAndReserveItem no_code (VRef 0) ledger_world) in
  let w2 := world_of (handleDelivery (VRef 0) w1) in
  objects w1 !! 0%nat = Some (sample_order "ORD1")
  ∧ r_status <$> reservations w1 !! VStr "ORD1" = Some "reserved"
  ∧ (∃ reservation',
       handleDelivery (VRef 0) w1
       = (Normal tt, set_reservations <[VStr "ORD1" := reservation']> w1, [])
       ∧ r_status reservation' = "fulfilled"
       ∧ r_fulfilledAt reservation' = Some "1970-01-01T00:00:00.000Z")
  ∧ world_of (handleDelivery (VRef 0) w2) = w2.
Proof.
  intros w1 w2.
  set (reserved := {| r_item := VStr "MacBook Pro"; r_quantity := 1;
                      r_price := literal 2399.99;
                      r_reservedAt := "1970-01-01T00:00:00.000Z";
                      r_status := "reserved"; r_fulfilledAt := None |}).
  set (fulfilled := {| r_item := VStr "MacBook Pro"; r_quantity := 1;
                       r_price := literal 2399.99;
                       r_reservedAt := "1970-01-01T00:00:00.000Z";
                       r_status := "fulfilled";
                       r_fulfilledAt := Some "1970-01-01T00:00:00.000Z" |}).
  assert (Hc1 : clock w1 = 0) by (vm_compute; reflexivity).
  assert (Hc2 : clock w2 = 0) by (vm_compute; reflexivity).
  assert (H1 : reservations w1 !! prop (sample_order "ORD1") "orderId"
               = Some reserved) by (vm_compute; reflexivity).
  assert (H2 : reservations w2 !! prop (sample_order "ORD1") "orderId"
               = Some fulfilled) by (vm_compute; reflexivity).
  split; [reflexivity|]. split; [vm_compute; reflexivity|]. split.
  - pose proof (handleDelivery_outcomes 0%nat (sample_order "ORD1") w1 eq_refl)
      as H.
    cbv zeta in H. rewrite H1, Hc1 in H. destruct H as (H & _).
    exists fulfilled. split; [exact H|]. split; reflexivity.
  - pose proof (handleDelivery_outcomes 0%nat (sample_order "ORD1") w2 eq_refl)
      as H.
    cbv zeta in H. rewrite H2, Hc2 in H. destruct H as (_ & _ & H).
    apply H; reflexivity.
Defined.

(** ** The stock of every item *)

Lemma preserves_modify (P : World → Prop) f :
  (∀ w, P w → P (f w)) → preserves P (modify f).
Proof. intros H w Hw. by apply H. Qed.

Lemma preserves_new_object (P : World → Prop) o :
  (∀ f w, P w → P (set_objects f w)) → preserves P (new_object o).
Proof. intros H w Hw. by apply H. Qed.

Lemma preserves_get_bind_all (P : World → Prop) {B} (k : World → M B) :
  (∀ w0, preserves P (k w0)) → preserves P (bind get k).
Proof.
  intros Hk w Hw. unfold bind, get. specialize (Hk w w Hw).
  by destruct (k w w) as [[r w2] tr2].
Qed.

Lemma preserves_get_bind_from (P : World → Prop) {B} (k : World → M B) :
  (∀ w0, P w0 → preserves P (k w0)) → preserves P (bind get k).
Proof.
  intros Hk w Hw. unfold bind, get. specialize (Hk w Hw w Hw).
  by destruct (k w w) as [[r w2] tr2].
Qed.

Lemma stocks_nonneg_insert k it w :
  stock_ok (stock it) → stocks_nonneg w →
  stocks_nonneg (set_inventory <[k := it]> w).
Proof.
  intros Hit Hw k' it' H. simpl in H.
  destruct (decide (k = k')) as [->|Hne].
  - rewrite lookup_insert_eq in H. by simplify_eq.
  - rewrite lookup_insert_ne in H by done. by eapply Hw.
Qed.

Lemma whole_of_Z n : 0 ≤ n → whole (of_Z n).
Proof. intros Hn. by exists n. Qed.

Lemma stocks_nonneg_initial w :
  inventory w = initial_inventory → stocks_nonneg w.
Proof.
  intros Hi k it H. rewrite Hi in H. unfold initial_inventory in H.
  unfold list_to_map in H. cbn [foldr fst snd uncurry] in H.
  repeat (apply lookup_insert_Some in H as [[_ <-]|[_ H]];
          [cbn [stock]; left; apply whole_of_Z; lia|]).
  by rewrite lookup_empty in H.
Qed.

Section StockFacts.

Variable code : hid → value → M unit.
Hypothesis code_preserves : ∀ h p, preserves stocks_nonneg (code h p).

Lemma publish_keeps_stocks t p : preserves stocks_nonneg (emit code t p).
Proof. by apply preserves_emit. Qed.

Lemma checkAndReserveItem_keeps_stocks orderData :
  preserves stocks_nonneg (checkAndReserveItem code orderData).
Proof.
  unfold checkAndReserveItem.
  apply preserves_bind; [apply preserves_get_prop|]. intros itemName.
  apply preserves_get_bind_from. intros w0 Hw0.
  destruct (inventory w0 !! itemName) as [item|] eqn:Hi;
    [|apply publish_keeps_stocks].
  destruct (num_leb (stock item) (of_Z 0)) eqn:Hs;
    [apply publish_keeps_stocks|].
  apply preserves_bind.
  { apply preserves_modify. intros w. apply stocks_nonneg_insert. simpl.
    apply stock_ok_sub_one; [by eapply Hw0|done]. }
  intros _. apply preserves_bind; [apply preserves_get_prop|]. intros orderId.
  apply preserves_bind; [apply preserves_get_prop|]. intros itemName'.
  apply preserves_bind; [apply preserves_now_iso|]. intros reservedAt.
  apply preserves_bind; [by apply preserves_modify|]. intros _.
  apply preserves_get_bind_all. intros w1.
  apply preserves_bind; [|intros _; apply publish_keeps_stocks].
  destruct (num_leb _ (of_Z (lowStockThreshold w1))); [|apply preserves_ret].
  apply preserves_bind; [apply preserves_get_prop|]. intros itemName''.
  apply preserves_bind; [by apply preserves_new_object|]. intros alert.
  apply publish_keeps_stocks.
Qed.

Lemma handleDelivery_keeps_stocks shipmentData :
  preserves stocks_nonneg (handleDelivery shipmentData).
Proof.
  unfold handleDelivery.
  apply preserves_bind; [apply preserves_get_prop|]. intros orderId.
  apply preserves_get_bind_all. intros w0.
  destruct (reservations w0 !! orderId); [|apply preserves_ret].
  apply preserves_bind; [apply preserves_now_iso|]. intros fulfilledAt.
  by apply preserves_modify.
Qed.

Lemma addStock_keeps_stocks itemName quantity w :
  whole quantity → stocks_nonneg w →
  stocks_nonneg (world_of (addStock code itemName quantity w)).
Proof.
  intros Hq Hw. unfold addStock. rewrite (bind_pure_at _ _ w w w eq_refl).
  destruct (inventory w !! itemName) as [item|] eqn:Hi; [|done].
  pose proof (Hw _ _ Hi) as Hitem.
  erewrite bind_pure_at by reflexivity.
  apply preserves_bind.
  - by apply preserves_new_object.
  - intros msg. apply publish_keeps_stocks.
  - apply stocks_nonneg_insert; [simpl; by apply stock_ok_add | done].
Qed.

Lemma addProduct_keeps_stocks itemName itemData :
  whole (or_number (d_stock itemData) (of_Z 0)) →
  preserves stocks_nonneg (addProduct code itemName itemData).
Proof.
  intros Hs. unfold addProduct. apply preserves_bind.
  { apply preserves_modify. intros w. apply stocks_nonneg_insert; by left. }
  intros _. apply preserves_bind; [by apply preserves_new_object|].
  intros msg. apply publish_keeps_stocks.
Qed.

(** Every operation that is given whole numbers of units, none negative,
    keeps the stocks whole and from going below 0. *)
Lemma run_op_keeps_stocks op :
  adds_nonneg op → preserves stocks_nonneg (run_op code op).
Proof.
  destruct op as [orderData|shipmentData|itemName quantity|itemName itemData];
    simpl; intros Hop.
  - apply checkAndReserveItem_keeps_stocks.
  - apply handleDelivery_keeps_stocks.
  - intros w. by apply addStock_keeps_stocks.
  - by apply addProduct_keeps_stocks.
Qed.

End StockFacts.

(** C5, as worded, fails, in three ways. [addStock] with a negative
    quantity takes the stock of the MacBook Pro, 10 after the construction
    of the ledger, to -1. A product added with half a unit in stock is left
    with half a unit less than none by one reservation. And two additions
    of 2^1023 units leave a stock of Infinity, which is no integer. *)
Lemma addStock_negative_quantity :
  let w := world_of (InventoryService_new 1 2 (empty_world 0)) in
  let w' := world_of (run_op no_code
                        (AddStock (VStr "MacBook Pro") (of_Z (-11))) w) in
  let half := {| d_stock := Some (literal 0.5); d_price := None;
                 d_category := None |} in
  let order : obj := <["orderId" := VStr "S1"]> (<["item" := VStr "S"]> ∅) in
  let h := world_of ((run_op no_code (AddProduct (VStr "S") half) ;;;
                      new_object order) w) in
  let h' := world_of (run_op no_code (Reserve (VRef 1)) h) in
  let much := AddStock (VStr "MacBook Pro") (of_Z (2 ^ 1023)) in
  let m := world_of ((run_op no_code much ;;; run_op no_code much) w) in
  stocks_nonneg w
  ∧ stock <$> inventory w' !! VStr "MacBook Pro" = Some (of_Z (-1))
  ∧ ¬ stocks_nonneg w'
  ∧ stock <$> inventory h !! VStr "S" = Some (literal 0.5)
  ∧ stock <$> inventory h' !! VStr "S" = Some (num_neg (literal 0.5))
  ∧ num_leb (of_Z 0) (num_neg (literal 0.5)) = false
  ∧ stock <$> inventory m !! VStr "MacBook Pro" = Some (Infinity false).
Proof.
  intros w w' half order h h' much m. split.
  { apply stocks_nonneg_initial. apply InventoryService_new_fields. }
  split; [vm_compute; reflexivity|]. split.
  { intros H.
    assert (Hl : inventory w' !! VStr "MacBook Pro"
                 = Some {| stock := of_Z (-1); price := literal 2399.99;
                           category := "laptops" |})
      by (vm_compute; reflexivity).
    specialize (H _ _ Hl). apply stock_ok_nonneg in H.
    vm_compute in H. discriminate H. }
  repeat split; vm_compute; reflexivity.
Qed.

(** C5, amended. In every state the ledger reaches from its construction,
    by reservation handling, delivery handling, [addStock] with a quantity
    that is a whole number, 0 or more, and [addProduct] with a stock that is
    a whole number, 0 or more, with listeners that themselves keep the
    stocks so, the stock of every item is a whole number, 0 or more, or is
    Infinity, which the additions reach past the largest double; no stock
    is below 0. *)
Theorem stock_never_negative
    (code : hid → value → M unit) (w : World) :
  (∀ h p, preserves stocks_nonneg (code h p)) →
  reachable code adds_nonneg w →
  stocks_nonneg w
  ∧ ∀ k it, inventory w !! k = Some it → num_leb (of_Z 0) (stock it) = true.
Proof.
  intros Hcode Hreach.
  assert (stocks_nonneg w) as Hw.
  { induction Hreach as [w h1 h2|w op Hr IH Hop|w h p Hr IH].
    - apply stocks_nonneg_initial. apply InventoryService_new_fields.
    - by apply run_op_keeps_stocks.
    - by apply Hcode. }
  split; [exact Hw|]. intros k it Hk. apply stock_ok_nonneg. by eapply Hw.
Qed.

Lemma stock_never_negative_witness :
  let w0 := world_of (InventoryService_new 1 2 (empty_world 0)) in
  let w1 := world_of (run_op no_code (AddStock (VStr "iPad Air") (of_Z 5)) w0) in
  let w2 := world_of (run_op no_code
              (Reserve (VRef (length (objects w0)))) w1) in
  (∀ h p, preserves stocks_nonneg (no_code h p))
  ∧ reachable no_code adds_nonneg w2
  ∧ stocks_nonneg w2.
Proof.
  intros w0 w1 w2.
  assert (Hcode : ∀ h p, preserves stocks_nonneg (no_code h p))
    by (intros h p w Hw; exact Hw).
  assert (Hreach : reachable no_code adds_nonneg w2).
  { apply reach_op; [|exact I].
    apply reach_op; [|apply whole_of_Z; discriminate].
    apply reach_new. }
  split; [exact Hcode|]. split; [exact Hreach|].
  exact (proj1 (stock_never_negative no_code w2 Hcode Hreach)).
Defined.

(** ** The services together *)

(** An order for a MacBook Pro, created on the system as [index.js] wires
    it: the inventory service hears "order:created" and reserves one unit
    out of 10, under the identifier of the order. *)
Example order_is_reserved :
  let w0 := world_of (InventoryService_new 1 2 (empty_world 0)) in
  let r := createOrder system_code (sample_order "ORD1") w0 in
  completion r = Normal (VRef 0)
  ∧ record_of r
    = [Published "order:created" (VRef 0)
         [Called 1 (VRef 0)
            [Published "order:inventory_reserved" (VRef 0) []]]]
  ∧ stock <$> inventory (world_of r) !! VStr "MacBook Pro" = Some (of_Z 9)
  ∧ r_status <$> reservations (world_of r) !! VStr "ORD1" = Some "reserved".
Proof. repeat split; vm_compute; reflexivity. Qed.
